(** * Block transfer and lifecycle protocol of pkg/block

    A shallow embedding of [pkg/block/block.go] and
    [pkg/block/metadata/meta.go]: the object-store client and the local
    filesystem are explicit state, every store call is logged together with
    the store it leaves behind, and the operations of the package are
    functions in a state-and-error monad over that state. *)

From Stdlib Require Import ZArith Lia Ascii.
From stdpp Require Import base option gmap strings list sorting pretty.

Local Open Scope Z_scope.
Local Open Scope stdpp_scope.

(** Object and file contents are byte sequences; a [string] is one. *)
Abbreviation bytes := string.

(** ** Go's [strings], [path] and [path/filepath] on the names used here *)

(** [strip p s] is [Some r] when [s = p ++ r]. *)
Fixpoint strip (p s : string) : option string :=
  match p, s with
  | EmptyString, _ => Some s
  | String c p', String d s' => if decide (c = d) then strip p' s' else None
  | String _ _, EmptyString => None
  end.

Definition strings_HasPrefix (s prefix : string) : bool :=
  bool_decide (is_Some (strip prefix s)).

Definition strings_TrimPrefix (s prefix : string) : string :=
  default s (strip prefix s).

Definition strings_HasSuffix (s suffix : string) : bool :=
  bool_decide (String.length suffix ≤ String.length s)%nat &&
  bool_decide (String.substring (String.length s - String.length suffix)
                 (String.length suffix) s = suffix).

Definition strings_Compare (a b : string) : comparison := String.compare a b.

(** objstore.DirDelim *)
Definition DirDelim : string := "/".

(** [path.Join] and [filepath.Join] of two elements.  Empty elements are
    ignored; the names joined here (a block id, fixed file names, directory
    entries and manifest paths) carry no dot segment and no doubled
    separator, so the cleaning step of the Go functions is the identity. *)
Definition path_Join (a b : string) : string :=
  if decide (a = "") then b
  else if decide (b = "") then a
  else a +:+ DirDelim +:+ b.

Definition filepath_Join := path_Join.

(** The text after the last separator. *)
Fixpoint base_go (acc s : string) : string :=
  match s with
  | EmptyString => String.rev acc
  | String c s' =>
      if decide (c = "/"%char) then base_go "" s' else base_go (String c acc) s'
  end.

Definition trim_slash (s : string) : string :=
  if strings_HasSuffix s DirDelim
  then String.substring 0 (String.length s - 1) s else s.

(** [filepath.Base]: the last element of the path, trailing separator
    removed first. *)
Definition filepath_Base (s : string) : string :=
  if decide (s = "") then "." else base_go "" (trim_slash s).

(** ** Errors and results *)

(** [errors.New] / [errors.Errorf] and [errors.Wrap] / [errors.Wrapf]. *)
Inductive error : Type :=
| ErrNew (msg : string)
| ErrWrap (cause : error) (msg : string).

Global Instance error_eq_dec : EqDecision error.
Proof. solve_decision. Defined.

(** What a call returns: a value, a Go error, or (for the two recursive
    walks over the store, which carry a depth budget) an exhausted budget. *)
Inductive result (A : Type) : Type :=
| Ok (a : A)
| Err (e : error)
| OutOfFuel.
Arguments Ok {A} a.
Arguments Err {A} e.
Arguments OutOfFuel {A}.

(** ** The world: object store, local filesystem, clock, counters *)

(** A node of the local filesystem. *)
Inductive node : Type :=
| NFile (data : bytes)
| NDir.

Global Instance node_eq_dec : EqDecision node.
Proof. solve_decision. Defined.

(** The calls of objstore.Bucket used by the package. *)
Inductive Call : Type :=
| CExists (name : string)
| CUpload (name : string) (data : bytes)
| CDelete (name : string)
| CIter (dir : string)
| CGet (name : string).

Global Instance Call_eq_dec : EqDecision Call.
Proof. solve_decision. Defined.

(** One logged store call: the call, whether it returned without error, and
    the objects in the store when it returned. *)
Record Event : Type := mkEvent {
  ev_call : Call;
  ev_ok : bool;
  ev_after : gmap string bytes
}.

(** The filesystem calls that change or persist the local disk. *)
Inductive FsOp : Type :=
| OpMkdirAll (p : string)
| OpMkdir (p : string)
| OpCreate (p : string)
| OpWrite (p : string) (data : bytes)
| OpSync (p : string)
| OpClose (p : string)
| OpRemoveAll (p : string)
| OpRename (from to : string)
| OpOpenDir (p : string)
| OpFdatasync (p : string).

Global Instance FsOp_eq_dec : EqDecision FsOp.
Proof. solve_decision. Defined.

(** One logged filesystem call, with the disk as it is seen afterwards. *)
Record FsEvent : Type := mkFsEvent {
  fe_op : FsOp;
  fe_ok : bool;
  fe_after : gmap string node
}.

Record World : Type := mkWorld {
  objects : gmap string bytes;   (* the bucket *)
  fs : gmap string node;         (* the local filesystem, by clean path *)
  trace : list Event;            (* store calls, oldest first *)
  fs_trace : list FsEvent;       (* filesystem calls, oldest first *)
  faults : list bool;            (* [true]: the next store call fails *)
  now : Z;                       (* time.Now().Unix() *)
  counters : gmap string nat     (* prometheus counters, by name *)
}.

Definition M (A : Type) : Type := World → result A * World.

Definition ret {A} (a : A) : M A := λ w, (Ok a, w).

Definition fail {A} (e : error) : M A := λ w, (Err e, w).

Definition bind {A B} (m : M A) (k : A → M B) : M B :=
  λ w, match m w with
       | (Ok a, w') => k a w'
       | (Err e, w') => (Err e, w')
       | (OutOfFuel, w') => (OutOfFuel, w')
       end.

Notation "x <- c ;; k" := (bind c (λ x, k))
  (at level 100, c at next level, right associativity).
Notation "c ;;; k" := (bind c (λ _, k))
  (at level 100, right associativity).

(** [if err := m; err != nil { return errors.Wrap(err, msg) }] *)
Definition wrap {A} (msg : string) (m : M A) : M A :=
  λ w, match m w with
       | (Err e, w') => (Err (ErrWrap e msg), w')
       | r => r
       end.

(** Run [f] on every element in order, stopping at the first error. *)
Fixpoint forM_ {A} (l : list A) (f : A → M unit) : M unit :=
  match l with
  | [] => ret tt
  | x :: l' => f x ;;; forM_ l' f
  end.

Definition set_objects (o : gmap string bytes) (w : World) : World :=
  mkWorld o (fs w) (trace w) (fs_trace w) (faults w) (now w) (counters w).
Definition set_fs (f : gmap string node) (w : World) : World :=
  mkWorld (objects w) f (trace w) (fs_trace w) (faults w) (now w) (counters w).
Definition set_faults (l : list bool) (w : World) : World :=
  mkWorld (objects w) (fs w) (trace w) (fs_trace w) l (now w) (counters w).
Definition set_counters (c : gmap string nat) (w : World) : World :=
  mkWorld (objects w) (fs w) (trace w) (fs_trace w) (faults w) (now w) c.
Definition log (c : Call) (ok : bool) (w : World) : World :=
  mkWorld (objects w) (fs w) (trace w ++ [mkEvent c ok (objects w)])
    (fs_trace w) (faults w) (now w) (counters w).
Definition fs_log (op : FsOp) (ok : bool) (w : World) : World :=
  mkWorld (objects w) (fs w) (trace w)
    (fs_trace w ++ [mkFsEvent op ok (fs w)]) (faults w) (now w) (counters w).

(** ** The object-store client (objstore.Bucket)

    A sequentially consistent store with fault injection: each call first
    consumes one entry of the fault schedule and fails, leaving the store as
    it was, when that entry is [true]. *)

Definition errInjected : error := ErrNew "store: injected failure".
Definition errNotFound : error := ErrNew "store: object not found".

Definition next_fault (w : World) : bool := default false (head (faults w)).

Definition store_call {A} (c : Call)
    (act : gmap string bytes → error + A * gmap string bytes) : M A :=
  λ w,
    let w1 := set_faults (tail (faults w)) w in
    if next_fault w then (Err errInjected, log c false w1)
    else match act (objects w) with
         | inl e => (Err e, log c false w1)
         | inr (a, o) => (Ok a, log c true (set_objects o w1))
         end.

Definition bkt_Exists (name : string) : M bool :=
  store_call (CExists name) (λ o, inr (bool_decide (is_Some (o !! name)), o)).

Definition bkt_Upload (name : string) (data : bytes) : M unit :=
  store_call (CUpload name data) (λ o, inr (tt, <[name := data]> o)).

(** Deleting an object that is not there is an error. *)
Definition bkt_Delete (name : string) : M unit :=
  store_call (CDelete name)
    (λ o, match o !! name with
          | Some _ => inr (tt, delete name o)
          | None => inl errNotFound
          end).

Definition bkt_Get (name : string) : M bytes :=
  store_call (CGet name)
    (λ o, match o !! name with
          | Some d => inr (d, o)
          | None => inl errNotFound
          end).

(** The part of [s] up to and including its first separator. *)
Fixpoint first_segment (s : string) : string :=
  match s with
  | EmptyString => ""
  | String c s' =>
      if decide (c = "/"%char) then DirDelim else String c (first_segment s')
  end.

(** A directory name as the listing uses it: with one trailing separator,
    the root being the empty name. *)
Definition as_dir (dir : string) : string :=
  if decide (dir = "") then ""
  else if strings_HasSuffix dir DirDelim then dir else dir +:+ DirDelim.

(** The entry of directory [d] (already in [as_dir] form) under which the
    key [k] is listed: [k] itself when it lies directly in [d], the
    sub-directory (with its trailing separator) otherwise. *)
Definition entry_of (d k : string) : option string :=
  match strip d k with
  | Some (String c r) => Some (d +:+ first_segment (String c r))
  | _ => None
  end.

(** The entries of a directory, each once, in sorted order. *)
Definition list_dir (keys : list string) (dir : string) : list string :=
  merge_sort String.le (remove_dups (omap (entry_of (as_dir dir)) keys)).

(** [Iter] lists the directory once and then calls [f] on every entry,
    stopping at the first error. *)
Definition bkt_Iter (dir : string) (f : string → M unit) : M unit :=
  names <- store_call (CIter dir)
             (λ o, inr (list_dir (elements (dom o)) dir, o)) ;;
  forM_ names f.

(** prometheus.Counter.Inc *)
Definition Counter_Inc (c : string) : M unit :=
  λ w, (Ok tt, set_counters (<[c := S (default 0%nat (counters w !! c))]> (counters w)) w).

Definition counter (c : string) (w : World) : nat := default 0%nat (counters w !! c).

Definition time_Now : M Z := λ w, (Ok (now w), w).

(** ** The local filesystem (package os)

    The disk is a finite map from clean paths to nodes.  Calls that change
    or persist it are logged; reads are not. *)

Record FileInfo : Type := mkFileInfo {
  fi_Name : string;
  fi_Size : Z;
  fi_IsDir : bool
}.

Record DirEntry : Type := mkDirEntry {
  de_Name : string;
  de_IsDir : bool;
  de_Info : error + FileInfo     (* what [DirEntry.Info] returns *)
}.

Definition errNotExist : error := ErrNew "no such file or directory".
Definition errIsDir : error := ErrNew "is a directory".
Definition errNotDir : error := ErrNew "not a directory".
Definition errExist : error := ErrNew "file exists".
Definition errNotEmpty : error := ErrNew "directory not empty".
Definition errBadHandle : error := ErrNew "bad file descriptor".

Definition is_dir (n : node) : bool :=
  match n with NDir => true | NFile _ => false end.

Definition info_of (p : string) (n : node) : FileInfo :=
  match n with
  | NFile d => mkFileInfo (filepath_Base p) (Z.of_nat (String.length d)) false
  | NDir => mkFileInfo (filepath_Base p) 0 true
  end.

(** The text before the last separator, when there is a separator. *)
Fixpoint dir_go (s : string) : option string :=
  match s with
  | EmptyString => None
  | String c s' =>
      match dir_go s' with
      | Some d => Some (String c d)
      | None => if decide (c = "/"%char) then Some "" else None
      end
  end.

(** [filepath.Dir] *)
Definition filepath_Dir (s : string) : string :=
  match dir_go s with
  | Some EmptyString => "/"
  | Some d => d
  | None => "."
  end.

(** The directory holding [p] exists: the working directory and the root
    always do. *)
Definition parent_ok (f : gmap string node) (p : string) : bool :=
  match dir_go p with
  | Some (String c d) => bool_decide (f !! String c d = Some NDir)
  | _ => true
  end.

(** The proper ancestors of a path, outermost first. *)
Fixpoint prefixes_go (acc s : string) : list string :=
  match s with
  | EmptyString => []
  | String c s' =>
      (if decide (c = "/"%char ∧ acc ≠ "") then [String.rev acc] else [])
      ++ prefixes_go (String c acc) s'
  end.

Definition ancestors (p : string) : list string := prefixes_go "" p.

Fixpoint has_sep (s : string) : bool :=
  match s with
  | EmptyString => false
  | String c s' => if decide (c = "/"%char) then true else has_sep s'
  end.

(** The name of [k] inside directory [d] (in [as_dir] form), when [k] lies
    directly in it. *)
Definition child_name (d k : string) : option string :=
  match strip d k with
  | Some (String c r) => if has_sep (String c r) then None else Some (String c r)
  | _ => None
  end.

Definition os_Stat (p : string) : M FileInfo :=
  λ w, match fs w !! p with
       | Some n => (Ok (info_of p n), w)
       | None => (Err errNotExist, w)
       end.

(** [os.ReadDir]: the entries of a directory, sorted by file name. *)
Definition read_dir (f : gmap string node) (p : string) : list DirEntry :=
  omap (λ name, n ← f !! (as_dir p +:+ name);
                Some (mkDirEntry name (is_dir n) (inr (info_of name n))))
       (merge_sort String.le (omap (child_name (as_dir p)) (elements (dom f)))).

Definition os_ReadDir (p : string) : M (list DirEntry) :=
  λ w, match fs w !! p with
       | Some NDir => (Ok (read_dir (fs w) p), w)
       | Some (NFile _) => (Err errNotDir, w)
       | None => (Err errNotExist, w)
       end.

(** [os.Open] followed by reading to the end. *)
Definition os_ReadFile (p : string) : M bytes :=
  λ w, match fs w !! p with
       | Some (NFile d) => (Ok d, w)
       | Some NDir => (Err errIsDir, w)
       | None => (Err errNotExist, w)
       end.

Definition fs_call (op : FsOp)
    (act : gmap string node → error + gmap string node) : M unit :=
  λ w, match act (fs w) with
       | inl e => (Err e, fs_log op false w)
       | inr f => (Ok tt, fs_log op true (set_fs f w))
       end.

Definition is_file_at (f : gmap string node) (p : string) : bool :=
  match f !! p with Some (NFile _) => true | _ => false end.

Definition os_MkdirAll (p : string) : M unit :=
  fs_call (OpMkdirAll p)
    (λ f, let ps := ancestors p ++ [p] in
          if existsb (is_file_at f) ps then inl errNotDir
          else inr (foldr (λ q g, <[q := NDir]> g) f ps)).

Definition os_Mkdir (p : string) : M unit :=
  fs_call (OpMkdir p)
    (λ f, if bool_decide (is_Some (f !! p)) then inl errExist
          else if parent_ok f p then inr (<[p := NDir]> f)
          else inl errNotExist).

(** [os.Create]: an empty file at [p], replacing a file that is there. *)
Definition os_Create (p : string) : M unit :=
  fs_call (OpCreate p)
    (λ f, if bool_decide (f !! p = Some NDir) then inl errIsDir
          else if parent_ok f p then inr (<[p := NFile ""]> f)
          else inl errNotExist).

(** Writing to, syncing and closing the open file at [p]. *)
Definition file_Write (p : string) (data : bytes) : M unit :=
  fs_call (OpWrite p data)
    (λ f, match f !! p with
          | Some (NFile old) => inr (<[p := NFile (old +:+ data)]> f)
          | _ => inl errBadHandle
          end).

Definition file_Sync (p : string) : M unit := fs_call (OpSync p) inr.

Definition file_Close (p : string) : M unit := fs_call (OpClose p) inr.

(** [os.RemoveAll]: [p] and everything below it; nothing to remove is not
    an error. *)
Definition os_RemoveAll (p : string) : M unit :=
  fs_call (OpRemoveAll p)
    (λ f, inr (filter (λ kn, kn.1 ≠ p ∧ strip (p +:+ DirDelim) kn.1 = None) f)).

Definition rekey (from to k : string) : string :=
  if decide (k = from) then to
  else match strip (from +:+ DirDelim) k with
       | Some r => to +:+ DirDelim +:+ r
       | None => k
       end.

Definition has_children (f : gmap string node) (p : string) : bool :=
  existsb (λ k, bool_decide (is_Some (strip (p +:+ DirDelim) k)))
    (elements (dom f)).

(** [os.Rename]: a file replaces a file at the new path; a directory moves
    with everything below it, onto nothing or onto an empty directory. *)
Definition os_Rename (from to : string) : M unit :=
  fs_call (OpRename from to)
    (λ f, match f !! from with
          | None => inl errNotExist
          | Some (NFile d) =>
              if bool_decide (f !! to = Some NDir) then inl errIsDir
              else if parent_ok f to then inr (<[to := NFile d]> (delete from f))
              else inl errNotExist
          | Some NDir =>
              if is_file_at f to then inl errNotDir
              else if has_children f to then inl errNotEmpty
              else if parent_ok f to then inr (kmap (rekey from to) (delete to f))
              else inl errNotExist
          end).

(** [fileutil.OpenDir], [fileutil.Fdatasync] *)
Definition fileutil_OpenDir (p : string) : M unit :=
  fs_call (OpOpenDir p)
    (λ f, match f !! p with
          | Some NDir => inr f
          | Some (NFile _) => inl errNotDir
          | None => inl errNotExist
          end).

Definition fileutil_Fdatasync (p : string) : M unit := fs_call (OpFdatasync p) inr.

(** ** Marks (pkg/block/metadata/markers.go, as used by block.go) *)

(** Modelled from the spec: the fixed file names of the three marks under a
    block's prefix (section 6, persisted object layout); markers.go is not
    part of the sources at hand. *)
Definition DeletionMarkFilename : string := "deletion-mark.json".
Definition NoCompactMarkFilename : string := "no-compact-mark.json".
Definition NoDownsampleMarkFilename : string := "no-downsample-mark.json".

Definition DeletionMarkVersion1 : Z := 1.
Definition NoCompactMarkVersion1 : Z := 1.
Definition NoDownsampleMarkVersion1 : Z := 1.

(** The mark payloads, with the fields block.go fills in.  A block id is
    kept in its text form ([ulid.ULID.String]). *)
Record DeletionMark : Type := mkDeletionMark {
  dm_ID : string;
  dm_DeletionTime : Z;
  dm_Version : Z;
  dm_Details : string
}.

Record NoCompactMark : Type := mkNoCompactMark {
  ncm_ID : string;
  ncm_Version : Z;
  ncm_NoCompactTime : Z;
  ncm_Reason : string;
  ncm_Details : string
}.

Record NoDownsampleMark : Type := mkNoDownsampleMark {
  ndm_ID : string;
  ndm_Version : Z;
  ndm_NoDownsampleTime : Z;
  ndm_Reason : string;
  ndm_Details : string
}.

(** Lift a pure fallible step ([json.Marshal] and the like). *)
Definition lift {A} (r : error + A) : M A :=
  match r with
  | inl e => fail e
  | inr a => ret a
  end.

Section Marks.

(** [json.Marshal] at the three payload types. *)
Variable marshalDeletionMark : DeletionMark → error + bytes.
Variable marshalNoCompactMark : NoCompactMark → error + bytes.
Variable marshalNoDownsampleMark : NoDownsampleMark → error + bytes.

(** MarkForDeletion creates a file which stores information about when the
    block was marked for deletion. *)
Definition MarkForDeletion (id details markedForDeletion : string) : M unit :=
  let deletionMarkFile := path_Join id DeletionMarkFilename in
  deletionMarkExists <-
    wrap ("check exists " +:+ deletionMarkFile +:+ " in bucket")
      (bkt_Exists deletionMarkFile) ;;
  if (deletionMarkExists : bool) then ret tt
  else
    t <- time_Now ;;
    deletionMark <-
      wrap "json encode deletion mark"
        (lift (marshalDeletionMark
                 (mkDeletionMark id t DeletionMarkVersion1 details))) ;;
    wrap ("upload file " +:+ deletionMarkFile +:+ " to bucket")
      (bkt_Upload deletionMarkFile deletionMark) ;;;
    Counter_Inc markedForDeletion.

(** MarkForNoCompact creates a file which marks block to be not compacted. *)
Definition MarkForNoCompact (id reason details markedForNoCompact : string)
    : M unit :=
  let m := path_Join id NoCompactMarkFilename in
  noCompactMarkExists <-
    wrap ("check exists " +:+ m +:+ " in bucket") (bkt_Exists m) ;;
  if (noCompactMarkExists : bool) then ret tt
  else
    t <- time_Now ;;
    noCompactMark <-
      wrap "json encode no compact mark"
        (lift (marshalNoCompactMark
                 (mkNoCompactMark id NoCompactMarkVersion1 t reason details))) ;;
    wrap ("upload file " +:+ m +:+ " to bucket")
      (bkt_Upload m noCompactMark) ;;;
    Counter_Inc markedForNoCompact.

(** MarkForNoDownsample creates a file which marks block to be not
    downsampled. *)
Definition MarkForNoDownsample (id reason details markedForNoDownsample : string)
    : M unit :=
  let m := path_Join id NoDownsampleMarkFilename in
  noDownsampleMarkExists <-
    wrap ("check exists " +:+ m +:+ " in bucket") (bkt_Exists m) ;;
  if (noDownsampleMarkExists : bool) then ret tt
  else
    t <- time_Now ;;
    noDownsampleMark <-
      wrap "json encode no downsample mark"
        (lift (marshalNoDownsampleMark
                 (mkNoDownsampleMark id NoDownsampleMarkVersion1 t reason
                    details))) ;;
    wrap ("upload file " +:+ m +:+ " to bucket")
      (bkt_Upload m noDownsampleMark) ;;;
    Counter_Inc markedForNoDownsample.

End Marks.

(** RemoveMark removes the file which marked the block for deletion,
    no-downsample or no-compact. *)
Definition RemoveMark (id removeMark markedFilename : string) : M unit :=
  let markedFile := path_Join id markedFilename in
  markedFileExists <-
    wrap ("check if " +:+ markedFile +:+ " file exists in bucket")
      (bkt_Exists markedFile) ;;
  if negb markedFileExists then ret tt
  else
    wrap ("delete file " +:+ markedFile +:+ " from bucket")
      (bkt_Delete markedFile) ;;;
    Counter_Inc removeMark.

(** ** JSON values (encoding/json, at the level of parsed values) *)

#[warnings="-register-all"]
Inductive json : Type :=
| JNull
| JBool (b : bool)
| JNumber (n : Z)                (* an integer literal *)
| JFraction (lit : string)       (* a literal with a fraction or exponent *)
| JString (s : string)
| JArray (l : list json)
| JObject (fields : list (string * json)).

(** The value of a key of an object: keys are matched as written, and the
    objects decoded here carry each key once (as an encoder writes them). *)
Fixpoint jfield (k : string) (fields : list (string * json)) : option json :=
  match fields with
  | [] => None
  | (k', v) :: rest => if decide (k' = k) then Some v else jfield k rest
  end.

Definition ebind {A B} (r : error + A) (k : A → error + B) : error + B :=
  match r with
  | inl e => inl e
  | inr a => k a
  end.

Notation "x <~ c ;; k" := (ebind c (λ x, k))
  (at level 100, c at next level, right associativity).

Fixpoint emap {A B} (f : A → error + B) (l : list A) : error + list B :=
  match l with
  | [] => inr []
  | x :: l' => y <~ f x ;; ys <~ emap f l' ;; inr (y :: ys)
  end.

Definition errType (what : string) : error :=
  ErrNew ("json: cannot unmarshal value into Go struct field " +:+ what).

(** Decoding into the Go types of the descriptor.  An absent key and a
    [null] leave a field at its zero value ([nil] for maps, slices and
    pointers). *)
Definition dec_int (what : string) (j : option json) : error + Z :=
  match j with
  | None | Some JNull => inr 0
  | Some (JNumber n) =>
      if bool_decide (- 2 ^ 63 ≤ n < 2 ^ 63) then inr n else inl (errType what)
  | Some _ => inl (errType what)
  end.

Definition dec_string (what : string) (j : option json) : error + string :=
  match j with
  | None | Some JNull => inr ""
  | Some (JString s) => inr s
  | Some _ => inl (errType what)
  end.

Definition dec_list {A} (what : string) (el : json → error + A)
    (j : option json) : error + list A :=
  match j with
  | None | Some JNull => inr []
  | Some (JArray l) => emap el l
  | Some _ => inl (errType what)
  end.

Fixpoint dec_entries (what : string) (fields : list (string * json))
    (acc : gmap string string) : error + gmap string string :=
  match fields with
  | [] => inr acc
  | (k, v) :: rest =>
      s <~ dec_string what (Some v) ;; dec_entries what rest (<[k := s]> acc)
  end.

(** [map[string]string]: [None] is the nil map. *)
Definition dec_string_map (what : string) (j : option json)
    : error + option (gmap string string) :=
  match j with
  | None | Some JNull => inr None
  | Some (JObject fields) => m <~ dec_entries what fields ∅ ;; inr (Some m)
  | Some _ => inl (errType what)
  end.

(** ** Block descriptor (pkg/block/metadata) *)

Definition HashFunc : Type := string.

(** Modelled from the spec: the two hash functions of hash.go, which is not
    among the sources: the non-trivial one and "no hashing". *)
Definition SHA256Func : HashFunc := "SHA256".
Definition NoneFunc : HashFunc := "".

Record ObjectHash : Type := mkObjectHash {
  Func : HashFunc;
  Value : string
}.

(** Modelled from the spec: two hashes match when the recorded values are
    the same ([ObjectHash.Equal] of hash.go). *)
Definition ObjectHash_Equal (oh other : ObjectHash) : bool :=
  bool_decide (Value oh = Value other).

Record File : Type := mkFile {
  RelPath : string;
  SizeBytes : Z;
  Hash : option ObjectHash
}.

Record IndexStats : Type := mkIndexStats {
  SeriesMaxSize : Z;
  ChunkMaxSize : Z
}.

(** Thanos holds block meta information specific to Thanos. *)
Record Thanos : Type := mkThanos {
  Version : Z;
  Labels : option (gmap string string);
  Downsample_Resolution : Z;
  Source : string;
  SegmentFiles : list string;
  Files : list File;
  Rewrites : option json;        (* kept as the JSON value *)
  Thanos_IndexStats : IndexStats;
  Extensions : option json;      (* kept as the JSON value *)
  UploadTime : Z
}.

(** tsdb.BlockMeta, embedded in Meta: the fields the package reads, the
    statistics and compaction provenance kept as JSON values. *)
Record BlockMeta : Type := mkBlockMeta {
  ULID : string;
  MinTime : Z;
  MaxTime : Z;
  Stats : option json;
  Compaction : option json;
  BlockMeta_Version : Z
}.

Record Meta : Type := mkMeta {
  Block : BlockMeta;
  Meta_Thanos : Thanos
}.

Definition MetaFilename : string := "meta.json".
Definition TSDBVersion1 : Z := 1.
Definition ThanosVersion1 : Z := 1.

Definition zeroThanos : Thanos :=
  mkThanos 0 None 0 "" [] [] None (mkIndexStats 0 0) None 0.

Definition zeroMeta : Meta :=
  mkMeta (mkBlockMeta "00000000000000000000000000" 0 0 None None 0) zeroThanos.

Definition set_Labels (l : option (gmap string string)) (t : Thanos) : Thanos :=
  mkThanos (Version t) l (Downsample_Resolution t) (Source t) (SegmentFiles t)
    (Files t) (Rewrites t) (Thanos_IndexStats t) (Extensions t) (UploadTime t).
Definition set_Files (fl : list File) (t : Thanos) : Thanos :=
  mkThanos (Version t) (Labels t) (Downsample_Resolution t) (Source t)
    (SegmentFiles t) fl (Rewrites t) (Thanos_IndexStats t) (Extensions t)
    (UploadTime t).
Definition set_UploadTime (u : Z) (t : Thanos) : Thanos :=
  mkThanos (Version t) (Labels t) (Downsample_Resolution t) (Source t)
    (SegmentFiles t) (Files t) (Rewrites t) (Thanos_IndexStats t)
    (Extensions t) u.
Definition set_Thanos (t : Thanos) (m : Meta) : Meta := mkMeta (Block m) t.

(** [len(m.Thanos.Labels)] *)
Definition len_Labels (t : Thanos) : nat := size (default ∅ (Labels t)).

(** Run [m]; when it fails, run [cleanup] and return the error of [m]
    ([runutil.CloseWithLogOnErr] on an error path). *)
Definition on_error {A} (m : M A) (cleanup : M unit) : M A :=
  λ w, match m w with
       | (Err e, w') => (Err e, (cleanup w').2)
       | r => r
       end.

Section Codec.

(** The scanner of encoding/json: the first JSON value of the input and the
    input after it, or nothing when the input does not start with one. *)
Variable json_scan : bytes → option (json * bytes).
(** [ulid.Parse], giving the id in its canonical text. *)
Variable ulid_Parse : string → error + string.
(** [time.Time.UnmarshalJSON], giving the instant as Unix time. *)
Variable time_Parse : string → error + Z.
(** The indented output of [json.Encoder.Encode] on a descriptor. *)
Variable json_encode : Meta → error + bytes.
(** SHA-256 of a byte sequence, in hexadecimal. *)
Variable sha256_hex : bytes → string.

Definition errSyntax : error := ErrNew "json: invalid input".

Definition is_json_space (c : ascii) : bool :=
  bool_decide (c = " "%char ∨ c = "009"%char ∨ c = "010"%char ∨ c = "013"%char).

Fixpoint all_space (s : string) : bool :=
  match s with
  | EmptyString => true
  | String c s' => is_json_space c && all_space s'
  end.

(** [json.Decoder.Decode] reads the first value of the stream;
    [json.Unmarshal] wants the whole input to be one value. *)
Definition Decoder_value (data : bytes) : error + json :=
  match json_scan data with
  | Some (j, _) => inr j
  | None => inl errSyntax
  end.

Definition Unmarshal_value (data : bytes) : error + json :=
  match json_scan data with
  | Some (j, rest) => if all_space rest then inr j else inl errSyntax
  | None => inl errSyntax
  end.

Definition dec_ObjectHash (j : option json) : error + option ObjectHash :=
  match j with
  | None | Some JNull => inr None
  | Some (JObject fs) =>
      f <~ dec_string "hashFunc" (jfield "hashFunc" fs) ;;
      v <~ dec_string "value" (jfield "value" fs) ;;
      inr (Some (mkObjectHash f v))
  | Some _ => inl (errType "hash")
  end.

Definition dec_File (j : json) : error + File :=
  match j with
  | JNull => inr (mkFile "" 0 None)
  | JObject fs =>
      p <~ dec_string "rel_path" (jfield "rel_path" fs) ;;
      n <~ dec_int "size_bytes" (jfield "size_bytes" fs) ;;
      h <~ dec_ObjectHash (jfield "hash" fs) ;;
      inr (mkFile p n h)
  | _ => inl (errType "files")
  end.

Definition dec_Resolution (j : option json) : error + Z :=
  match j with
  | None | Some JNull => inr 0
  | Some (JObject fs) => dec_int "resolution" (jfield "resolution" fs)
  | Some _ => inl (errType "downsample")
  end.

Definition dec_IndexStats (j : option json) : error + IndexStats :=
  match j with
  | None | Some JNull => inr (mkIndexStats 0 0)
  | Some (JObject fs) =>
      s <~ dec_int "series_max_size" (jfield "series_max_size" fs) ;;
      c <~ dec_int "chunk_max_size" (jfield "chunk_max_size" fs) ;;
      inr (mkIndexStats s c)
  | Some _ => inl (errType "index_stats")
  end.

Definition dec_time (what : string) (j : option json) : error + Z :=
  match j with
  | None | Some JNull => inr 0
  | Some (JString s) => time_Parse s
  | Some _ => inl (errType what)
  end.

Definition dec_ULID (j : option json) : error + string :=
  match j with
  | None | Some JNull => inr (ULID (Block zeroMeta))
  | Some (JString s) => ulid_Parse s
  | Some _ => inl (errType "ulid")
  end.

(** The field tags of [Thanos]. *)
Definition dec_Thanos (j : option json) : error + Thanos :=
  match j with
  | None | Some JNull => inr zeroThanos
  | Some (JObject fs) =>
      version <~ dec_int "version" (jfield "version" fs) ;;
      labels <~ dec_string_map "labels" (jfield "labels" fs) ;;
      resolution <~ dec_Resolution (jfield "downsample" fs) ;;
      source <~ dec_string "source" (jfield "source" fs) ;;
      segments <~ dec_list "segment_files" (λ v, dec_string "segment_files" (Some v))
                    (jfield "segment_files" fs) ;;
      files <~ dec_list "files" dec_File (jfield "files" fs) ;;
      stats <~ dec_IndexStats (jfield "index_stats" fs) ;;
      uploaded <~ dec_time "upload_time" (jfield "upload_time" fs) ;;
      inr (mkThanos version labels resolution source segments files
             (jfield "rewrites" fs) stats (jfield "extensions" fs) uploaded)
  | Some _ => inl (errType "thanos")
  end.

(** Decoding a JSON value into a zero [Meta]: the keys of the embedded
    [tsdb.BlockMeta] and the key [thanos] of one object. *)
Definition dec_Meta (j : json) : error + Meta :=
  match j with
  | JNull => inr zeroMeta
  | JObject fs =>
      id <~ dec_ULID (jfield "ulid" fs) ;;
      mint <~ dec_int "minTime" (jfield "minTime" fs) ;;
      maxt <~ dec_int "maxTime" (jfield "maxTime" fs) ;;
      version <~ dec_int "version" (jfield "version" fs) ;;
      thanos <~ dec_Thanos (jfield "thanos" fs) ;;
      inr (mkMeta (mkBlockMeta id mint maxt (jfield "stats" fs)
                     (jfield "compaction" fs) version) thanos)
  | _ => inl (errType "Meta")
  end.

(** [json.NewDecoder(rc).Decode(&m)] and [json.Unmarshal(obj, &m)] *)
Definition json_Decode_Meta (data : bytes) : error + Meta :=
  j <~ Decoder_value data ;; dec_Meta j.

Definition json_Unmarshal_Meta (data : bytes) : error + Meta :=
  j <~ Unmarshal_value data ;; dec_Meta j.

(** Read the block meta from the given reader.  The reader is given by the
    bytes it yields; closing it does not fail. *)
Definition Read (rc : bytes) : error + Meta :=
  m <~ json_Decode_Meta rc ;;
  if bool_decide (BlockMeta_Version (Block m) ≠ TSDBVersion1) then
    inl (ErrNew ("unexpected meta file version " +:+
                 pretty (BlockMeta_Version (Block m))))
  else
    let version := Version (Meta_Thanos m) in
    let version := if bool_decide (version = 0) then ThanosVersion1 else version in
    if bool_decide (version ≠ ThanosVersion1) then
      inl (ErrNew ("unexpected meta file Thanos section version " +:+
                   pretty (BlockMeta_Version (Block m))))
    else
      match Labels (Meta_Thanos m) with
      | None => inr (set_Thanos (set_Labels (Some ∅) (Meta_Thanos m)) m)
      | Some _ => inr m
      end.

(** ReadFromDir reads the given meta from <dir>/meta.json. *)
Definition ReadFromDir (dir : string) : M Meta :=
  f <- os_ReadFile (filepath_Join dir MetaFilename) ;;
  lift (Read f).

(** Write writes the given encoded meta to writer: here an open file. *)
Definition Meta_Write (m : Meta) (f : string) : M unit :=
  enc <- lift (json_encode m) ;;
  file_Write f enc.

Definition renameFile (from to : string) : M unit :=
  os_RemoveAll to ;;;
  os_Rename from to ;;;
  let pdir := filepath_Dir to in
  fileutil_OpenDir pdir ;;;
  on_error (fileutil_Fdatasync pdir) (file_Close pdir) ;;;
  file_Close pdir.

(** WriteToDir writes the encoded meta into <dir>/meta.json. *)
Definition WriteToDir (m : Meta) (dir : string) : M unit :=
  let path := filepath_Join dir MetaFilename in
  let tmp := path +:+ ".tmp" in
  os_Create tmp ;;;
  on_error (Meta_Write m tmp) (file_Close tmp) ;;;
  file_Sync tmp ;;;
  file_Close tmp ;;;
  renameFile tmp path.

(** Modelled from the spec: hashing a local file (hash.go is not among the
    sources): the digest of the file's content under the configured
    function; a file that cannot be read and a function other than the
    non-trivial one are errors. *)
Definition CalculateHash (p : string) (hf : HashFunc) : M ObjectHash :=
  if decide (hf = SHA256Func) then
    data <- wrap "opening file" (os_ReadFile p) ;;
    ret (mkObjectHash SHA256Func (sha256_hex data))
  else fail (ErrNew "hash function not supported").

End Codec.

(** ** Transfer helpers of objstore

    The helpers move one file or one directory between the local disk and
    the store.  Transfers run one after the other and stop at the first
    error; what a failed download leaves on the local disk is not part of
    the model. *)

(** The regular files below [srcdir], as paths relative to it, in sorted
    order. *)
Definition walk_files (f : gmap string node) (srcdir : string) : list string :=
  merge_sort String.le
    (omap (λ k, r ← strip (as_dir srcdir) k;
                if is_file_at f k then Some r else None)
          (elements (dom f))).

Definition UploadFile (src dst : string) : M unit :=
  r <- wrap ("open file " +:+ src) (os_ReadFile src) ;;
  wrap ("upload file " +:+ src +:+ " as " +:+ dst) (bkt_Upload dst r).

Definition UploadDir (srcdir dstdir : string) : M unit :=
  df <- wrap "stat dir" (os_Stat srcdir) ;;
  if negb (fi_IsDir df) then fail (ErrNew (srcdir +:+ " is not a directory"))
  else
    λ w, forM_ (walk_files (fs w) srcdir)
           (λ rel, UploadFile (filepath_Join srcdir rel) (path_Join dstdir rel)) w.

Definition DownloadFile (src dst : string) : M unit :=
  λ w,
    let dst := if bool_decide (fs w !! dst = Some NDir)
               then filepath_Join dst (filepath_Base src) else dst in
    (rc <- wrap ("get file " +:+ src) (bkt_Get src) ;;
     wrap ("create file " +:+ dst) (os_Create dst) ;;;
     wrap ("copy object to file " +:+ src) (file_Write dst rc) ;;;
     file_Close dst) w.

Fixpoint DownloadDir (fuel : nat) (originalSrc src dst : string)
    (ignoredPaths : list string) : M unit :=
  match fuel with
  | O => λ w, (OutOfFuel, w)
  | S n =>
      wrap "create dir" (os_MkdirAll dst) ;;;
      bkt_Iter src (λ name,
        let dst := filepath_Join dst (filepath_Base name) in
        if strings_HasSuffix name DirDelim then
          DownloadDir n originalSrc name dst ignoredPaths
        else if bool_decide
                  (strings_TrimPrefix name (originalSrc +:+ DirDelim) ∈ ignoredPaths)
        then ret tt
        else DownloadFile name dst)
  end.

(** A recursion budget that no walk over the store exhausts: directory
    names grow with every level and never get longer than the longest
    object name. *)
Definition depth_budget (o : gmap string bytes) : nat :=
  S (foldr (λ k n, String.length k `max` n)%nat 0%nat (elements (dom o))).

(** ** pkg/block/block.go *)

Definition IndexFilename : string := "index".
Definition IndexHeaderFilename : string := "index-header".
Definition ChunksDirname : string := "chunks".
Definition DebugMetas : string := "debug/metas".

Section Block.

Variable json_scan : bytes → option (json * bytes).
Variable ulid_Parse : string → error + string.
Variable time_Parse : string → error + Z.
Variable json_encode : Meta → error + bytes.
Variable sha256_hex : bytes → string.

Local Abbreviation ReadFromDir := (ReadFromDir json_scan ulid_Parse time_Parse).
Local Abbreviation CalculateHash := (CalculateHash sha256_hex).

(** The loop of Download over the manifest: the relative paths whose local
    copy has the recorded hash are appended to [ignoredPaths]; a failure to
    hash is logged and the entry passed over. *)
Fixpoint ignored_loop (dst : string) (files : list File)
    (ignoredPaths : list string) : M (list string) :=
  match files with
  | [] => ret ignoredPaths
  | fl :: rest =>
      match Hash fl with
      | None => ignored_loop dst rest ignoredPaths
      | Some h =>
          if bool_decide (Func h = NoneFunc) || bool_decide (RelPath fl = "")
          then ignored_loop dst rest ignoredPaths
          else
            λ w, match CalculateHash (filepath_Join dst (RelPath fl)) (Func h) w with
                 | (Ok actualHash, w') =>
                     if ObjectHash_Equal h actualHash
                     then ignored_loop dst rest (ignoredPaths ++ [RelPath fl]) w'
                     else ignored_loop dst rest ignoredPaths w'
                 | (_, w') => ignored_loop dst rest ignoredPaths w'
                 end
      end
  end.

(** Download downloads directory that is mean to be block directory. If any
    of the files have a hash calculated in the meta file and it matches with
    what is in the destination path then we do not download it. We always
    re-download the meta file. *)
Definition Download (id dst : string) : M unit :=
  wrap "create dir" (os_MkdirAll dst) ;;;
  DownloadFile (path_Join id MetaFilename) (path_Join dst MetaFilename) ;;;
  m <- wrap ("reading meta from " +:+ dst) (ReadFromDir dst) ;;
  ignoredPaths <- ignored_loop dst (Files (Meta_Thanos m)) [MetaFilename] ;;
  (λ w, DownloadDir (depth_budget (objects w)) id id dst ignoredPaths w) ;;;
  let chunksDir := filepath_Join dst ChunksDirname in
  λ w, match os_Stat chunksDir w with
       | (Err e, w') =>
           if bool_decide (e = errNotExist) then os_Mkdir chunksDir w'
           else (Err (ErrWrap e ("stat " +:+ chunksDir)), w')
       | (Ok _, w') => (Ok tt, w')
       | (OutOfFuel, w') => (OutOfFuel, w')
       end.

(** The order of [sort.Slice] in GatherFileStats: by relative path. *)
Definition less (a b : File) : Prop :=
  strings_Compare (RelPath a) (RelPath b) = Lt.

Definition not_after (a b : File) : Prop := ¬ less b a.

Global Instance not_after_dec : RelDecision not_after.
Proof. intros a b. unfold not_after, less. apply _. Defined.

(** [sort.Slice]: the relative paths sorted here are pairwise different, so
    the sorted slice does not depend on the sorting algorithm. *)
Definition sort_Slice (res : list File) : list File := merge_sort not_after res.

(** The loop of GatherFileStats over the entries of the chunks directory. *)
Fixpoint chunk_stats (blockDir : string) (hf : HashFunc) (files : list DirEntry)
    (res : list File) : M (list File) :=
  match files with
  | [] => ret res
  | f :: rest =>
      fi <- wrap ("getting file info " +:+ filepath_Join ChunksDirname (de_Name f))
              (lift (de_Info f)) ;;
      let mf := mkFile (filepath_Join ChunksDirname (de_Name f)) (fi_Size fi) None in
      mf <- (if bool_decide (hf ≠ NoneFunc) && negb (de_IsDir f) then
               h <- wrap ("calculate hash " +:+ filepath_Join ChunksDirname (de_Name f))
                      (CalculateHash
                         (filepath_Join (filepath_Join blockDir ChunksDirname)
                            (de_Name f)) hf) ;;
               ret (mkFile (RelPath mf) (SizeBytes mf) (Some h))
             else ret mf) ;;
      chunk_stats blockDir hf rest (res ++ [mf])
  end.

(** GatherFileStats returns metadata.File entry for files inside TSDB block
    (index, chunks, meta.json). *)
Definition GatherFileStats (blockDir : string) (hf : HashFunc) : M (list File) :=
  files <- wrap ("read dir " +:+ filepath_Join blockDir ChunksDirname)
             (os_ReadDir (filepath_Join blockDir ChunksDirname)) ;;
  res <- chunk_stats blockDir hf files [] ;;
  indexFile <- wrap ("stat " +:+ filepath_Join blockDir IndexFilename)
                 (os_Stat (filepath_Join blockDir IndexFilename)) ;;
  let mf := mkFile (fi_Name indexFile) (fi_Size indexFile) None in
  mf <- (if bool_decide (hf ≠ NoneFunc) then
           h <- wrap ("calculate hash " +:+ fi_Name indexFile)
                  (CalculateHash (filepath_Join blockDir IndexFilename) hf) ;;
           ret (mkFile (RelPath mf) (SizeBytes mf) (Some h))
         else ret mf) ;;
  let res := res ++ [mf] in
  metaFile <- wrap ("stat " +:+ filepath_Join blockDir MetaFilename)
                (os_Stat (filepath_Join blockDir MetaFilename)) ;;
  let res := res ++ [mkFile (fi_Name metaFile) 0 None] in
  ret (sort_Slice res).

(** upload uploads block from given block dir that ends with block id.
    NOTE: Upload updates `meta.Thanos.File` section. *)
Definition upload (bdir : string) (hf : HashFunc) (checkExternalLabels : bool)
    : M unit :=
  df <- os_Stat bdir ;;
  if negb (fi_IsDir df) then fail (ErrNew (bdir +:+ " is not a directory"))
  else
    id <- wrap "not a block dir" (lift (ulid_Parse (fi_Name df))) ;;
    meta <- wrap "read meta" (ReadFromDir bdir) ;;
    if checkExternalLabels && bool_decide (len_Labels (Meta_Thanos meta) = 0%nat)
    then fail (ErrNew "empty external labels are not allowed for Thanos block.")
    else
      files <- wrap "gather meta file stats" (GatherFileStats bdir hf) ;;
      let meta := set_Thanos (set_Files files (Meta_Thanos meta)) meta in
      wrap "upload chunks"
        (UploadDir (filepath_Join bdir ChunksDirname) (path_Join id ChunksDirname)) ;;;
      wrap "upload index"
        (UploadFile (filepath_Join bdir IndexFilename) (path_Join id IndexFilename)) ;;;
      t <- time_Now ;;
      let meta := set_Thanos (set_UploadTime t (Meta_Thanos meta)) meta in
      metaEncoded <- wrap "encode meta file" (lift (json_encode meta)) ;;
      (* Meta.json always need to be uploaded as a last item. *)
      wrap "upload meta file" (bkt_Upload (path_Join id MetaFilename) metaEncoded).

(** Upload uploads a TSDB block to the object storage. It verifies basic
    features of Thanos block. *)
Definition Upload (bdir : string) (hf : HashFunc) : M unit := upload bdir hf true.

(** UploadPromBlock uploads a TSDB block to the object storage. It assumes
    the block is used in Prometheus so it doesn't check Thanos external
    labels. *)
Definition UploadPromBlock (bdir : string) (hf : HashFunc) : M unit :=
  upload bdir hf false.

(** deleteDirRec removes all objects prefixed with dir from the bucket. It
    skips objects that return true for the passed keep function. *)
Fixpoint deleteDirRec (fuel : nat) (dir : string) (keep : string → bool)
    : M unit :=
  match fuel with
  | O => λ w, (OutOfFuel, w)
  | S n =>
      bkt_Iter dir (λ name,
        (* If we hit a directory, call DeleteDir recursively. *)
        if strings_HasSuffix name DirDelim then deleteDirRec n name keep
        else if keep name then ret tt
        else bkt_Delete name)
  end.

(** Delete removes directory that is meant to be block directory: meta.json
    first and deletion-mark.json last. *)
Definition Delete (id : string) : M unit :=
  let metaFile := path_Join id MetaFilename in
  let deletionMarkFile := path_Join id DeletionMarkFilename in
  (* Delete block meta file. *)
  ok <- wrap ("stat " +:+ metaFile) (bkt_Exists metaFile) ;;
  (if (ok : bool) then wrap ("delete " +:+ metaFile) (bkt_Delete metaFile)
   else ret tt) ;;;
  (* Delete the block objects, but skip the metaFile and the deletionMarkFile. *)
  (λ w, deleteDirRec (depth_budget (objects w)) id
          (λ name, bool_decide (name = metaFile)
                   || bool_decide (name = deletionMarkFile)) w) ;;;
  (* Delete block deletion mark. *)
  ok <- wrap ("stat " +:+ deletionMarkFile) (bkt_Exists deletionMarkFile) ;;
  if (ok : bool) then
    wrap ("delete " +:+ deletionMarkFile) (bkt_Delete deletionMarkFile)
  else ret tt.

(** DownloadMeta downloads only meta file from bucket by block ID. *)
Definition DownloadMeta (id : string) : M Meta :=
  obj <- wrap ("meta.json bkt get for " +:+ id)
           (bkt_Get (path_Join id MetaFilename)) ;;
  wrap ("unmarshal meta.json for block " +:+ id)
    (lift (json_Unmarshal_Meta json_scan ulid_Parse time_Parse obj)).

Definition IsBlockMetaFile (path : string) : bool :=
  bool_decide (filepath_Base path = MetaFilename).

Definition IsBlockDir (path : string) : option string :=
  match ulid_Parse (filepath_Base path) with
  | inr id => Some id
  | inl _ => None
  end.

(** GetSegmentFiles returns list of segment files for given block. In case
    of errors, nil is returned. *)
Definition GetSegmentFiles (blockDir : string) (w : World) : list string :=
  match os_ReadDir (filepath_Join blockDir ChunksDirname) w with
  | (Ok files, _) => de_Name <$> files
  | _ => []
  end.

End Block.

(** ** Vocabulary of the properties *)

(** The common shape of MarkForDeletion, MarkForNoCompact and
    MarkForNoDownsample: the mark's object name, its payload as a function
    of the current time, and the counter. *)
Definition setMark (m : string) (encode : Z → error + bytes) (encMsg c : string)
    : M unit :=
  markExists <- wrap ("check exists " +:+ m +:+ " in bucket") (bkt_Exists m) ;;
  if (markExists : bool) then ret tt
  else
    t <- time_Now ;;
    mark <- wrap encMsg (lift (encode t)) ;;
    wrap ("upload file " +:+ m +:+ " to bucket") (bkt_Upload m mark) ;;;
    Counter_Inc c.

Definition is_upload (e : Event) : Prop :=
  match ev_call e with CUpload _ _ => True | _ => False end.

Definition is_delete (e : Event) : Prop :=
  match ev_call e with CDelete _ => True | _ => False end.

(** The ways a mark-setting call can go: the existence check fails, the
    mark is there, the payload cannot be encoded, the upload fails, the
    upload succeeds. *)
Inductive setMark_run (m : string) (encode : Z → error + bytes) (c : string)
    (w : World) : result unit → World → Prop :=
| setMark_probe_failed e w' :
    next_fault w = true →
    objects w' = objects w → counters w' = counters w →
    trace w' = trace w ++ [mkEvent (CExists m) false (objects w)] →
    setMark_run m encode c w (Err e) w'
| setMark_present w' :
    next_fault w = false → is_Some (objects w !! m) →
    objects w' = objects w → counters w' = counters w →
    trace w' = trace w ++ [mkEvent (CExists m) true (objects w)] →
    setMark_run m encode c w (Ok tt) w'
| setMark_encode_failed e e' w' :
    next_fault w = false → objects w !! m = None →
    encode (now w) = inl e →
    objects w' = objects w → counters w' = counters w →
    trace w' = trace w ++ [mkEvent (CExists m) true (objects w)] →
    setMark_run m encode c w (Err e') w'
| setMark_upload_failed data e w' :
    next_fault w = false → objects w !! m = None →
    encode (now w) = inr data →
    objects w' = objects w → counters w' = counters w →
    trace w' = trace w ++ [mkEvent (CExists m) true (objects w);
                           mkEvent (CUpload m data) false (objects w)] →
    setMark_run m encode c w (Err e) w'
| setMark_uploaded data w' :
    next_fault w = false → objects w !! m = None →
    encode (now w) = inr data →
    objects w' = <[m := data]> (objects w) →
    counters w' = <[c := S (counter c w)]> (counters w) →
    trace w' = trace w ++ [mkEvent (CExists m) true (objects w);
                           mkEvent (CUpload m data) true (objects w')] →
    setMark_run m encode c w (Ok tt) w'.

(** The ways RemoveMark can go. *)
Inductive removeMark_run (m c : string) (w : World)
    : result unit → World → Prop :=
| removeMark_probe_failed e w' :
    next_fault w = true →
    objects w' = objects w → counters w' = counters w →
    trace w' = trace w ++ [mkEvent (CExists m) false (objects w)] →
    removeMark_run m c w (Err e) w'
| removeMark_absent w' :
    next_fault w = false → objects w !! m = None →
    objects w' = objects w → counters w' = counters w →
    trace w' = trace w ++ [mkEvent (CExists m) true (objects w)] →
    removeMark_run m c w (Ok tt) w'
| removeMark_delete_failed e w' :
    next_fault w = false → is_Some (objects w !! m) →
    objects w' = objects w → counters w' = counters w →
    trace w' = trace w ++ [mkEvent (CExists m) true (objects w);
                           mkEvent (CDelete m) false (objects w)] →
    removeMark_run m c w (Err e) w'
| removeMark_deleted w' :
    next_fault w = false → is_Some (objects w !! m) →
    objects w' = delete m (objects w) →
    counters w' = <[c := S (counter c w)]> (counters w) →
    trace w' = trace w ++ [mkEvent (CExists m) true (objects w);
                           mkEvent (CDelete m) true (objects w')] →
    removeMark_run m c w (Ok tt) w'.

(** A call that did nothing but a successful existence check of [m]. *)
Definition noop_after_probe (m : string) (w : World) (x : result unit * World)
    : Prop :=
  x.1 = Ok tt ∧ objects x.2 = objects w ∧ counters x.2 = counters w ∧
  trace x.2 = trace w ++ [mkEvent (CExists m) true (objects w)].

(** The counter moved by one together with the store (which [fresh] says
    was in the state that lets the call act), or neither moved. *)
Definition counted_iff_changed (c : string) (ok_change : Event → Prop)
    (fresh : Prop) (w : World) (x : result unit * World) : Prop :=
  (fresh ∧ x.1 = Ok tt ∧ counter c x.2 = S (counter c w) ∧
   objects x.2 ≠ objects w ∧
   ∃ pre e, trace x.2 = trace w ++ pre ++ [e] ∧ ok_change e ∧ ev_ok e = true ∧
            ev_after e = objects x.2 ∧ Forall (λ e', ¬ ok_change e') pre)
  ∨
  (counters x.2 = counters w ∧ objects x.2 = objects w ∧
   ∃ evs, trace x.2 = trace w ++ evs ∧
          Forall (λ e, ok_change e → ev_ok e = false) evs).

(** What Read does to a decoded descriptor that passes its checks: a nil
    label map becomes an empty one. *)
Definition normalized (m : Meta) : Meta :=
  match Labels (Meta_Thanos m) with
  | None => set_Thanos (set_Labels (Some ∅) (Meta_Thanos m)) m
  | Some _ => m
  end.

(** The Thanos-section version after an absent or zero value has been
    defaulted. *)
Definition effective_version (m : Meta) : Z :=
  if bool_decide (Version (Meta_Thanos m) = 0) then ThanosVersion1
  else Version (Meta_Thanos m).

(** A name ends in the separator. *)
Fixpoint ends_sep (s : string) : bool :=
  match s with
  | EmptyString => false
  | String c EmptyString => bool_decide (c = "/"%char)
  | String _ s' => ends_sep s'
  end.

(** A computation that only reads: it returns the world it was given. *)
Definition readonly {A} (m : M A) : Prop :=
  ∀ w, (m w).2 = w ∧ (m w).1 ≠ OutOfFuel.

(** The log of the successful uploads of [items], one after the other, into
    a store that holds [o], and the store they leave. *)
Fixpoint upload_events (o : gmap string bytes) (items : list (string * bytes))
    : list Event :=
  match items with
  | [] => []
  | (k, d) :: rest =>
      mkEvent (CUpload k d) true (<[k := d]> o) :: upload_events (<[k := d]> o) rest
  end.

Definition put_all (o : gmap string bytes) (items : list (string * bytes))
    : gmap string bytes :=
  foldl (λ o kd, <[kd.1 := kd.2]> o) o items.

Definition data_at (f : gmap string node) (p : string) : bytes :=
  match f !! p with
  | Some (NFile d) => d
  | _ => ""
  end.

(** The content objects of a block: one per regular file below the chunks
    directory, then the index. *)
Definition content_items (f : gmap string node) (bdir id : string)
    : list (string * bytes) :=
  ((λ rel, (path_Join (path_Join id ChunksDirname) rel,
            data_at f (filepath_Join (filepath_Join bdir ChunksDirname) rel)))
     <$> walk_files f (filepath_Join bdir ChunksDirname))
  ++ [(path_Join id IndexFilename, data_at f (filepath_Join bdir IndexFilename))].

(** The ways an upload can go, for a block directory whose name parses to
    [id]: rejected before any store call; stopped in the content uploads,
    after a part [sent] of them and possibly one failed call [failed];
    stopped between content and descriptor; descriptor upload failed;
    done. *)
Inductive upload_run (f : gmap string node) (bdir id : string) (w : World)
    : result unit → World → Prop :=
| upload_rejected e :
    upload_run f bdir id w (Err e) w
| upload_content_failed e sent rest failed w' :
    content_items f bdir id = sent ++ rest → rest ≠ [] →
    (failed = [] ∨
     ∃ k d, head rest = Some (k, d) ∧
            failed = [mkEvent (CUpload k d) false (put_all (objects w) sent)]) →
    trace w' = trace w ++ upload_events (objects w) sent ++ failed →
    objects w' = put_all (objects w) sent →
    upload_run f bdir id w (Err e) w'
| upload_encode_failed e w' :
    trace w' = trace w ++ upload_events (objects w) (content_items f bdir id) →
    objects w' = put_all (objects w) (content_items f bdir id) →
    upload_run f bdir id w (Err e) w'
| upload_meta_failed e enc w' :
    trace w' = trace w ++ upload_events (objects w) (content_items f bdir id)
                 ++ [mkEvent (CUpload (path_Join id MetaFilename) enc) false
                       (put_all (objects w) (content_items f bdir id))] →
    objects w' = put_all (objects w) (content_items f bdir id) →
    upload_run f bdir id w (Err e) w'
| upload_done enc w' :
    trace w' = trace w ++ upload_events (objects w) (content_items f bdir id)
                 ++ [mkEvent (CUpload (path_Join id MetaFilename) enc) true
                       (objects w')] →
    objects w' = <[path_Join id MetaFilename := enc]>
                   (put_all (objects w) (content_items f bdir id)) →
    upload_run f bdir id w (Ok tt) w'.

(** The part of upload that talks to the store: the steps after the file
    statistics have been gathered into the descriptor. *)
Definition upload_transfer (json_encode : Meta → error + bytes)
    (bdir id : string) (meta : Meta) : M unit :=
  wrap "upload chunks"
    (UploadDir (filepath_Join bdir ChunksDirname) (path_Join id ChunksDirname)) ;;;
  wrap "upload index"
    (UploadFile (filepath_Join bdir IndexFilename) (path_Join id IndexFilename)) ;;;
  t <- time_Now ;;
  let meta := set_Thanos (set_UploadTime t (Meta_Thanos meta)) meta in
  metaEncoded <- wrap "encode meta file" (lift (json_encode meta)) ;;
  wrap "upload meta file" (bkt_Upload (path_Join id MetaFilename) metaEncoded).

Definition errEmptyLabels : error :=
  ErrNew "empty external labels are not allowed for Thanos block.".

(** An event is an upload of the object [name]. *)
Definition uploads_name (name : string) (e : Event) : Prop :=
  ∃ d, ev_call e = CUpload name d.

Definition set_Compaction (c : option json) (m : Meta) : Meta :=
  mkMeta (mkBlockMeta (ULID (Block m)) (MinTime (Block m)) (MaxTime (Block m))
            (Stats (Block m)) c (BlockMeta_Version (Block m)))
    (Meta_Thanos m).

Section Inject.

Variable json_scan : bytes → option (json * bytes).
Variable ulid_Parse : string → error + string.
Variable time_Parse : string → error + Z.
Variable json_encode : Meta → error + bytes.

(** InjectThanos sets Thanos meta to the block meta JSON and saves it to
    the disk. *)
Definition InjectThanos (bdir : string) (meta : Thanos)
    (downsampledMeta : option BlockMeta) : M Meta :=
  newMeta <- wrap "read new meta"
               (ReadFromDir json_scan ulid_Parse time_Parse bdir) ;;
  let newMeta := set_Thanos meta newMeta in
  (* While downsampling we need to copy original compaction. *)
  let newMeta := match downsampledMeta with
                 | Some d => set_Compaction (Compaction d) newMeta
                 | None => newMeta
                 end in
  wrap "write new meta" (WriteToDir json_encode newMeta bdir) ;;;
  ret newMeta.

End Inject.

(** A computation that touches the local disk only: the store, its call
    log, the fault schedule, the clock and the counters are as before. *)
Definition same_store (w w' : World) : Prop :=
  objects w' = objects w ∧ trace w' = trace w ∧ faults w' = faults w ∧
  now w' = now w ∧ counters w' = counters w.

Definition local {A} (m : M A) : Prop := ∀ w, same_store w (m w).2.

(** What GatherFileStats records for an entry of the chunks directory, for
    the index and for the descriptor, read off a disk [f]. *)
Definition hash_at (sha256_hex : bytes → string) (f : gmap string node)
    (p : string) : ObjectHash :=
  mkObjectHash SHA256Func (sha256_hex (data_at f p)).

Definition chunk_stat (sha256_hex : bytes → string) (f : gmap string node)
    (blockDir : string) (hf : HashFunc) (e : DirEntry) : File :=
  mkFile (filepath_Join ChunksDirname (de_Name e))
    (match de_Info e with inr fi => fi_Size fi | inl _ => 0 end)
    (if bool_decide (hf ≠ NoneFunc) && negb (de_IsDir e)
     then Some (hash_at sha256_hex f
                  (filepath_Join (filepath_Join blockDir ChunksDirname) (de_Name e)))
     else None).

Definition index_stat (sha256_hex : bytes → string) (f : gmap string node)
    (blockDir : string) (hf : HashFunc) : File :=
  mkFile (filepath_Base (filepath_Join blockDir IndexFilename))
    (match f !! filepath_Join blockDir IndexFilename with
     | Some n => fi_Size (info_of (filepath_Join blockDir IndexFilename) n)
     | None => 0
     end)
    (if bool_decide (hf ≠ NoneFunc)
     then Some (hash_at sha256_hex f (filepath_Join blockDir IndexFilename))
     else None).

Definition meta_stat (blockDir : string) : File :=
  mkFile (filepath_Base (filepath_Join blockDir MetaFilename)) 0 None.

Definition stats_unsorted (sha256_hex : bytes → string) (f : gmap string node)
    (blockDir : string) (hf : HashFunc) : list File :=
  (chunk_stat sha256_hex f blockDir hf
     <$> read_dir f (filepath_Join blockDir ChunksDirname))
  ++ [index_stat sha256_hex f blockDir hf; meta_stat blockDir].

(** ** A concrete block, store and codec for the worked examples *)

Module Demo.

Definition B : string := "01BX5ZZKBKACTAV9WEVGEMMVRZ".

Definition marD (d : DeletionMark) : error + bytes :=
  inr ("deletion " +:+ pretty (dm_DeletionTime d) +:+ " " +:+ dm_Details d).
Definition marC (d : NoCompactMark) : error + bytes :=
  inr ("no-compact " +:+ pretty (ncm_NoCompactTime d) +:+ " " +:+ ncm_Details d).
Definition marS (d : NoDownsampleMark) : error + bytes :=
  inr ("no-downsample " +:+ pretty (ndm_NoDownsampleTime d) +:+ " " +:+ ndm_Details d).

(** A store holding the three marks of block [B], and an empty one. *)
Definition marked : gmap string bytes :=
  list_to_map [(B +:+ "/deletion-mark.json", "deletion 7 first");
               (B +:+ "/no-compact-mark.json", "no-compact 7 first");
               (B +:+ "/no-downsample-mark.json", "no-downsample 7 first")].

Definition w_marked : World := mkWorld marked ∅ [] [] [] 100 ∅.
Definition w_empty : World := mkWorld ∅ ∅ [] [] [] 7 ∅.

(** A scanner that knows a few documents by name, an id parser that wants
    26 characters, and stand-ins for the time parser, the encoder and the
    digest. *)
Definition legacy_doc : json :=
  JObject [("version", JNumber 1);
           ("thanos", JObject [("source", JString "sidecar")])].
Definition labelled_doc : json :=
  JObject [("version", JNumber 1);
           ("thanos", JObject [("version", JNumber 1);
                               ("labels", JObject [("tenant", JString "a")])])].
Definition unlabelled_doc : json :=
  JObject [("version", JNumber 1);
           ("thanos", JObject [("version", JNumber 1); ("labels", JObject [])])].
Definition future_doc : json :=
  JObject [("version", JNumber 2);
           ("thanos", JObject [("version", JNumber 3)])].

Definition scan (s : bytes) : option (json * bytes) :=
  if decide (s = "legacy") then Some (legacy_doc, "")
  else if decide (s = "labelled") then Some (labelled_doc, "")
  else if decide (s = "unlabelled") then Some (unlabelled_doc, "")
  else if decide (s = "future") then Some (future_doc, "")
  else None.

Definition uparse (s : string) : error + string :=
  if decide (String.length s = 26%nat) then inr s else inl (ErrNew "ulid: bad data size").
Definition tparse (s : string) : error + Z := inr 0.
Definition enc (m : Meta) : error + bytes :=
  inr ("meta uploaded at " +:+ pretty (UploadTime (Meta_Thanos m)) +:+ " with "
       +:+ pretty (length (Files (Meta_Thanos m))) +:+ " files").
Definition sha (b : bytes) : string := "sha256(" +:+ b +:+ ")".

(** A store holding a descriptor of a later format under block [B]. *)
Definition w_future : World :=
  mkWorld (list_to_map [(B +:+ "/meta.json", "future")]) ∅ [] [] [] 100 ∅.

(** The local directory of block [B]: a descriptor, an index of 4 bytes and
    two chunk segments. *)
Definition blockdir : string := "data/" +:+ B.

Definition disk (descriptor : bytes) : gmap string node :=
  list_to_map [("data", NDir);
               (blockdir, NDir);
               (blockdir +:+ "/meta.json", NFile descriptor);
               (blockdir +:+ "/index", NFile "iiii");
               (blockdir +:+ "/chunks", NDir);
               (blockdir +:+ "/chunks/000001", NFile "c1");
               (blockdir +:+ "/chunks/000002", NFile "c22")].

Definition w_block : World := mkWorld ∅ (disk "labelled") [] [] [] 100 ∅.
Definition w_unlabelled : World := mkWorld ∅ (disk "unlabelled") [] [] [] 100 ∅.


(** An encoder that rejects every descriptor. *)
Definition enc_fail (m : Meta) : error + bytes :=
  inl (ErrNew "json: unsupported value").

(** A Thanos section to inject. *)
Definition sidecar_section : Thanos :=
  mkThanos 1 (Some {["tenant" := "a"]}) 0 "sidecar" [] [] None (mkIndexStats 0 0)
    None 0.

(** The manifest entry of the second segment of [disk], hashed. *)
Definition segment2 : File :=
  mkFile "chunks/000002" 3 (Some (mkObjectHash SHA256Func (sha "c22"))).

End Demo.

(** * Properties *)

(** ** Marks *)

Lemma MarkForDeletion_setMark mar id details c :
  MarkForDeletion mar id details c =
  setMark (path_Join id DeletionMarkFilename)
    (λ t, mar (mkDeletionMark id t DeletionMarkVersion1 details))
    "json encode deletion mark" c.
Proof. reflexivity. Qed.

Lemma MarkForNoCompact_setMark mar id reason details c :
  MarkForNoCompact mar id reason details c =
  setMark (path_Join id NoCompactMarkFilename)
    (λ t, mar (mkNoCompactMark id NoCompactMarkVersion1 t reason details))
    "json encode no compact mark" c.
Proof. reflexivity. Qed.

Lemma MarkForNoDownsample_setMark mar id reason details c :
  MarkForNoDownsample mar id reason details c =
  setMark (path_Join id NoDownsampleMarkFilename)
    (λ t, mar (mkNoDownsampleMark id NoDownsampleMarkVersion1 t reason details))
    "json encode no downsample mark" c.
Proof. reflexivity. Qed.

Lemma setMark_runs m encode msg c w :
  setMark_run m encode c w (setMark m encode msg c w).1 (setMark m encode msg c w).2.
Proof.
  unfold setMark, bind, wrap, bkt_Exists, bkt_Upload, store_call, time_Now,
    lift, Counter_Inc, ret, fail.
  destruct (next_fault w) eqn:Hf; simpl.
  { eapply setMark_probe_failed; eauto. }
  case_bool_decide as Hm; simpl.
  { eapply setMark_present; eauto. }
  apply eq_None_not_Some in Hm.
  destruct (encode (now w)) as [e|data] eqn:He; simpl.
  { eapply setMark_encode_failed; eauto. }
  destruct (next_fault (log _ _ _)) eqn:Hf2; simpl.
  - eapply setMark_upload_failed; eauto. simpl. by rewrite <- app_assoc.
  - eapply setMark_uploaded; eauto. simpl. by rewrite <- app_assoc.
Qed.

Lemma RemoveMark_runs id c name w :
  removeMark_run (path_Join id name) c w
    (RemoveMark id c name w).1 (RemoveMark id c name w).2.
Proof.
  unfold RemoveMark, bind, wrap, bkt_Exists, bkt_Delete, store_call,
    Counter_Inc, ret.
  destruct (next_fault w) eqn:Hf; simpl.
  { eapply removeMark_probe_failed; eauto. }
  case_bool_decide as Hm; simpl.
  2:{ apply eq_None_not_Some in Hm. eapply removeMark_absent; eauto. }
  destruct Hm as [v Hv]. rewrite Hv.
  destruct (next_fault (log _ _ _)) eqn:Hf2; simpl.
  - eapply removeMark_delete_failed; eauto. simpl. by rewrite <- app_assoc.
  - eapply removeMark_deleted; eauto. simpl. by rewrite <- app_assoc.
Qed.

Lemma setMark_noop m encode msg c w :
  next_fault w = false → is_Some (objects w !! m) →
  noop_after_probe m w (setMark m encode msg c w).
Proof.
  intros Hf [v Hv]. unfold noop_after_probe.
  destruct (setMark_runs m encode msg c w); try congruence; eauto.
Qed.

Lemma setMark_marks m encode msg c w w' :
  setMark m encode msg c w = (Ok tt, w') → is_Some (objects w' !! m).
Proof.
  intros Hrun. pose proof (setMark_runs m encode msg c w) as H.
  rewrite Hrun in H. simpl in H. inversion H as [| ? ? Hm Ho | | |? ? ? ? ? Ho]; subst.
  - by rewrite Ho.
  - rewrite Ho, lookup_insert_eq. eauto.
Qed.

Lemma insert_fresh_ne (m : string) (d : bytes) (o : gmap string bytes) :
  o !! m = None → <[m := d]> o ≠ o.
Proof. intros Hn Heq. rewrite <- Heq, lookup_insert_eq in Hn. done. Qed.

Lemma delete_present_ne (m : string) (o : gmap string bytes) :
  is_Some (o !! m) → delete m o ≠ o.
Proof. intros [v Hv] Heq. rewrite <- Heq, lookup_delete_eq in Hv. done. Qed.

Lemma counter_insert c n w w' :
  counters w' = <[c := n]> (counters w) → counter c w' = n.
Proof. intros H. unfold counter. by rewrite H, lookup_insert_eq. Qed.

Lemma setMark_counts m encode msg c w :
  counted_iff_changed c is_upload (objects w !! m = None) w
    (setMark m encode msg c w).
Proof.
  unfold counted_iff_changed.
  destruct (setMark_runs m encode msg c w)
    as [? ? ? Ho Hc Ht|? ? ? Ho Hc Ht|? ? ? ? ? ? Ho Hc Ht|? ? ? ? ? ? Ho Hc Ht
        |data ? ? Hn ? Ho Hc Ht].
  1-4: right; rewrite Ho, Hc, Ht; split_and!; try done;
       eexists; split; [done|]; repeat constructor; simpl;
       unfold is_upload; simpl; tauto.
  left. split_and!; try done.
  - by apply (counter_insert _ _ w).
  - rewrite Ho. by apply insert_fresh_ne.
  - eexists [_], _. split; [exact Ht|]. unfold is_upload; simpl.
    split_and!; try done. repeat constructor. simpl. tauto.
Qed.

Lemma RemoveMark_counts id c name w :
  counted_iff_changed c is_delete (is_Some (objects w !! path_Join id name)) w
    (RemoveMark id c name w).
Proof.
  unfold counted_iff_changed.
  destruct (RemoveMark_runs id c name w)
    as [? ? ? Ho Hc Ht|? ? ? Ho Hc Ht|? ? ? ? Ho Hc Ht|? ? Hs Ho Hc Ht].
  1-3: right; rewrite Ho, Hc, Ht; split_and!; try done;
       eexists; split; [done|]; repeat constructor; simpl;
       unfold is_delete; simpl; tauto.
  left. split_and!; try done.
  - by apply (counter_insert _ _ w).
  - rewrite Ho. by apply delete_present_ne.
  - eexists [_], _. split; [exact Ht|]. unfold is_delete; simpl.
    split_and!; try done. repeat constructor. simpl. tauto.
Qed.

Lemma RemoveMark_noop id c name w :
  next_fault w = false → objects w !! path_Join id name = None →
  noop_after_probe (path_Join id name) w (RemoveMark id c name w).
Proof.
  intros Hf Hn. unfold noop_after_probe.
  destruct (RemoveMark_runs id c name w) as [| |? ? ? [v Hv]|? ? [v Hv]];
    try congruence; eauto.
Qed.

(** C6: setting a mark is idempotent.  When the existence check goes
    through and the mark object is in the store, MarkForDeletion,
    MarkForNoCompact and MarkForNoDownsample return success having done
    nothing but that check: no upload, the store and the counters as they
    were.  So a second MarkForDeletion, with other details and at a later
    time, leaves the mark written by the first one as it is.  RemoveMark on
    an absent mark likewise returns success and deletes nothing. *)
Theorem marks_idempotent
    (marD : DeletionMark → error + bytes)
    (marC : NoCompactMark → error + bytes)
    (marS : NoDownsampleMark → error + bytes)
    (id reason details c name : string) (w : World) :
  next_fault w = false →
  (is_Some (objects w !! path_Join id DeletionMarkFilename) →
   noop_after_probe (path_Join id DeletionMarkFilename) w
     (MarkForDeletion marD id details c w))
  ∧ (is_Some (objects w !! path_Join id NoCompactMarkFilename) →
     noop_after_probe (path_Join id NoCompactMarkFilename) w
       (MarkForNoCompact marC id reason details c w))
  ∧ (is_Some (objects w !! path_Join id NoDownsampleMarkFilename) →
     noop_after_probe (path_Join id NoDownsampleMarkFilename) w
       (MarkForNoDownsample marS id reason details c w))
  ∧ (objects w !! path_Join id name = None →
     noop_after_probe (path_Join id name) w (RemoveMark id c name w))
  ∧ (∀ w0 w1 details0 c0,
       MarkForDeletion marD id details0 c0 w0 = (Ok tt, w1) →
       objects w = objects w1 →
       (MarkForDeletion marD id details c w).1 = Ok tt ∧
       objects (MarkForDeletion marD id details c w).2 = objects w1).
Proof.
  intros Hf. split_and!.
  - intros Hs. rewrite MarkForDeletion_setMark. by apply setMark_noop.
  - intros Hs. rewrite MarkForNoCompact_setMark. by apply setMark_noop.
  - intros Hs. rewrite MarkForNoDownsample_setMark. by apply setMark_noop.
  - intros Hn. by apply RemoveMark_noop.
  - intros w0 w1 details0 c0 Hrun Ho.
    rewrite MarkForDeletion_setMark in Hrun. apply setMark_marks in Hrun.
    rewrite <- Ho in Hrun. rewrite MarkForDeletion_setMark.
    destruct (setMark_noop _ (λ t, marD (mkDeletionMark id t DeletionMarkVersion1 details))
                "json encode deletion mark" c w Hf Hrun) as (H1 & H2 & _).
    split; [done|]. by rewrite H2.
Qed.

Lemma marks_idempotent_witness :
  noop_after_probe (Demo.B +:+ "/deletion-mark.json") Demo.w_marked
    (MarkForDeletion Demo.marD Demo.B "second" "marked" Demo.w_marked)
  ∧ noop_after_probe (Demo.B +:+ "/no-compact-mark.json") Demo.w_marked
      (MarkForNoCompact Demo.marC Demo.B "manual" "second" "marked" Demo.w_marked)
  ∧ noop_after_probe (Demo.B +:+ "/no-downsample-mark.json") Demo.w_marked
      (MarkForNoDownsample Demo.marS Demo.B "manual" "second" "marked" Demo.w_marked)
  ∧ noop_after_probe (Demo.B +:+ "/deletion-mark.json") Demo.w_empty
      (RemoveMark Demo.B "marked" "deletion-mark.json" Demo.w_empty)
  ∧ objects (MarkForDeletion Demo.marD Demo.B "second" "marked" Demo.w_marked).2
      !! (Demo.B +:+ "/deletion-mark.json") = Some "deletion 7 first".
Proof.
  destruct (marks_idempotent Demo.marD Demo.marC Demo.marS Demo.B "manual"
              "second" "marked" "deletion-mark.json" Demo.w_marked eq_refl)
    as (H1 & H2 & H3 & _ & H5).
  destruct (marks_idempotent Demo.marD Demo.marC Demo.marS Demo.B "manual"
              "second" "marked" "deletion-mark.json" Demo.w_empty eq_refl)
    as (_ & _ & _ & H4 & _).
  split_and!.
  - apply H1. vm_compute. eauto.
  - apply H2. vm_compute. eauto.
  - apply H3. vm_compute. eauto.
  - apply H4. vm_compute. reflexivity.
  - destruct (H5 (mkWorld (delete (Demo.B +:+ "/deletion-mark.json") Demo.marked)
                    ∅ [] [] [] 7 ∅)
                 (mkWorld Demo.marked ∅
                    [mkEvent (CExists (Demo.B +:+ "/deletion-mark.json")) true
                       (delete (Demo.B +:+ "/deletion-mark.json") Demo.marked);
                     mkEvent (CUpload (Demo.B +:+ "/deletion-mark.json")
                                "deletion 7 first") true Demo.marked]
                    [] [] 7 (<["marked" := 1%nat]> ∅))
                 "first" "marked") as [_ H6].
    + vm_compute. reflexivity.
    + reflexivity.
    + rewrite H6. vm_compute. reflexivity.
Defined.

(** C10: the counter passed to a mark operation moves exactly with the
    store.  Either the mark was absent (for RemoveMark: present), the call
    returned success, its last store call was the successful upload (for
    RemoveMark: deletion) and the only one, the store changed and the
    counter went up by one; or the store and every counter are as before
    and no upload (deletion) succeeded - which covers the path where the
    mark is already there (already gone) and every error. *)
Theorem mark_counter_tracks_store
    (marD : DeletionMark → error + bytes)
    (marC : NoCompactMark → error + bytes)
    (marS : NoDownsampleMark → error + bytes)
    (id reason details c name : string) (w : World) :
  counted_iff_changed c is_upload
    (objects w !! path_Join id DeletionMarkFilename = None) w
    (MarkForDeletion marD id details c w)
  ∧ counted_iff_changed c is_upload
      (objects w !! path_Join id NoCompactMarkFilename = None) w
      (MarkForNoCompact marC id reason details c w)
  ∧ counted_iff_changed c is_upload
      (objects w !! path_Join id NoDownsampleMarkFilename = None) w
      (MarkForNoDownsample marS id reason details c w)
  ∧ counted_iff_changed c is_delete
      (is_Some (objects w !! path_Join id name)) w
      (RemoveMark id c name w).
Proof.
  split_and!.
  - rewrite MarkForDeletion_setMark. apply setMark_counts.
  - rewrite MarkForNoCompact_setMark. apply setMark_counts.
  - rewrite MarkForNoDownsample_setMark. apply setMark_counts.
  - apply RemoveMark_counts.
Qed.

(** ** The descriptor codec *)

Ltac ebind_inv :=
  repeat match goal with
         | H : ebind ?x _ = inr _ |- _ =>
             let E := fresh "E" in
             destruct x eqn:E; simpl in H; [discriminate H|]
         | H : inr _ = inr _ |- _ => injection H as H
         end.

Section CodecFacts.

Variable json_scan : bytes → option (json * bytes).
Variable ulid_Parse : string → error + string.
Variable time_Parse : string → error + Z.

Local Abbreviation Read' := (Read json_scan ulid_Parse time_Parse).
Local Abbreviation Decode' := (json_Decode_Meta json_scan ulid_Parse time_Parse).
Local Abbreviation Unmarshal' := (json_Unmarshal_Meta json_scan ulid_Parse time_Parse).
Local Abbreviation dec_Meta' := (dec_Meta ulid_Parse time_Parse).

(** Read, as a function of what the decoder returned. *)
Lemma Read_unfold rc :
  Read' rc =
  match Decode' rc with
  | inl e => inl e
  | inr m =>
      if bool_decide (BlockMeta_Version (Block m) ≠ TSDBVersion1) then
        inl (ErrNew ("unexpected meta file version " +:+
                     pretty (BlockMeta_Version (Block m))))
      else if bool_decide (effective_version m ≠ ThanosVersion1) then
        inl (ErrNew ("unexpected meta file Thanos section version " +:+
                     pretty (BlockMeta_Version (Block m))))
      else inr (normalized m)
  end.
Proof.
  unfold Read, ebind. destruct (Decode' rc) as [e|m]; [done|].
  case_bool_decide; [done|]. unfold effective_version, normalized.
  case_bool_decide; [done|]. by destruct (Labels (Meta_Thanos m)).
Qed.

Lemma normalized_Labels m : Labels (Meta_Thanos (normalized m)) ≠ None.
Proof. unfold normalized. by destruct (Labels (Meta_Thanos m)) eqn:E; simpl; rewrite ?E. Qed.

Lemma normalized_Version m :
  Version (Meta_Thanos (normalized m)) = Version (Meta_Thanos m) ∧
  BlockMeta_Version (Block (normalized m)) = BlockMeta_Version (Block m).
Proof. unfold normalized. by destruct (Labels (Meta_Thanos m)). Qed.

Lemma normalized_nil m :
  Labels (Meta_Thanos m) = None → Labels (Meta_Thanos (normalized m)) = Some ∅.
Proof. unfold normalized. by intros ->. Qed.

(** A whole-input value is also the first value of the stream. *)
Lemma Unmarshal_Decode obj m : Unmarshal' obj = inr m → Decode' obj = inr m.
Proof.
  unfold json_Unmarshal_Meta, json_Decode_Meta, Unmarshal_value, Decoder_value.
  destruct (json_scan obj) as [[j rest]|]; [|done].
  by destruct (all_space rest).
Qed.

(** Keys that are not in the Thanos section leave their fields at zero. *)
Lemma dec_Meta_absent fields tfields m :
  dec_Meta' (JObject fields) = inr m →
  jfield "thanos" fields = Some (JObject tfields) →
  (jfield "version" tfields = None → Version (Meta_Thanos m) = 0) ∧
  (jfield "labels" tfields = None → Labels (Meta_Thanos m) = None).
Proof.
  unfold dec_Meta. intros H Ht. rewrite Ht in H. ebind_inv. subst. simpl.
  split; intros Hk.
  - match goal with E : dec_int "version" (jfield "version" tfields) = _ |- _ =>
      rewrite Hk in E; simpl in E end.
    congruence.
  - match goal with E : dec_string_map _ _ = _ |- _ => rewrite Hk in E; simpl in E end.
    congruence.
Qed.

Lemma Decode_scan rc j rest m :
  json_scan rc = Some (j, rest) → dec_Meta' j = inr m → Decode' rc = inr m.
Proof. intros Hs Hd. unfold json_Decode_Meta, Decoder_value. by rewrite Hs. Qed.

Lemma Decode_scan_inv rc j rest m :
  json_scan rc = Some (j, rest) → Decode' rc = inr m → dec_Meta' j = inr m.
Proof. intros Hs. unfold json_Decode_Meta, Decoder_value. by rewrite Hs. Qed.

(** C4: version gating of the decoder.  Read fails when the input does not
    decode, when the top-level version is not 1, and when the Thanos-section
    version - an absent or zero one counted as 1 - is not 1; in every other
    case it succeeds.  In particular a descriptor whose Thanos section has
    no version key decodes.  Every descriptor Read returns has top-level
    version 1, a Thanos-section version of 0 or 1, and a label map that is
    not nil: a missing one has become the empty map. *)
Theorem Read_version_gating (rc : bytes) :
  (∀ e, Decode' rc = inl e → Read' rc = inl e)
  ∧ (∀ m0, Decode' rc = inr m0 →
       BlockMeta_Version (Block m0) ≠ TSDBVersion1 → ∃ e, Read' rc = inl e)
  ∧ (∀ m0, Decode' rc = inr m0 →
       effective_version m0 ≠ ThanosVersion1 → ∃ e, Read' rc = inl e)
  ∧ (∀ m0, Decode' rc = inr m0 →
       BlockMeta_Version (Block m0) = TSDBVersion1 →
       effective_version m0 = ThanosVersion1 → Read' rc = inr (normalized m0))
  ∧ (∀ fields tfields rest m0,
       json_scan rc = Some (JObject fields, rest) →
       jfield "thanos" fields = Some (JObject tfields) →
       jfield "version" tfields = None →
       dec_Meta' (JObject fields) = inr m0 →
       BlockMeta_Version (Block m0) = TSDBVersion1 →
       Read' rc = inr (normalized m0) ∧ Version (Meta_Thanos m0) = 0)
  ∧ (∀ m, Read' rc = inr m →
       BlockMeta_Version (Block m) = TSDBVersion1 ∧
       (Version (Meta_Thanos m) = 0 ∨ Version (Meta_Thanos m) = ThanosVersion1) ∧
       Labels (Meta_Thanos m) ≠ None)
  ∧ (∀ m0 m, Decode' rc = inr m0 → Labels (Meta_Thanos m0) = None →
       Read' rc = inr m → Labels (Meta_Thanos m) = Some ∅).
Proof.
  rewrite Read_unfold. split_and!.
  - by intros e ->.
  - intros m0 -> Hv. rewrite bool_decide_true by done. eauto.
  - intros m0 -> Hv. case_bool_decide; [eauto|].
    rewrite bool_decide_true by done. eauto.
  - intros m0 -> Hv Ht. case_bool_decide; [done|]. by case_bool_decide.
  - intros fields tfields rest m0 Hs Ht Hk Hd Hv.
    rewrite (Decode_scan _ _ _ _ Hs Hd).
    destruct (dec_Meta_absent _ _ _ Hd Ht) as [H0 _]. specialize (H0 Hk).
    split; [|done]. case_bool_decide; [done|].
    case_bool_decide as H2; [|done]. exfalso. apply H2.
    unfold effective_version. rewrite H0. by rewrite bool_decide_true.
  - intros m. destruct (Decode' rc) as [e|m0]; [done|].
    case_bool_decide as Hv; [done|]. case_bool_decide as Ht; [done|].
    intros [= <-]. destruct (normalized_Version m0) as [-> ->].
    split_and!.
    + by destruct (decide (BlockMeta_Version (Block m0) = TSDBVersion1)).
    + unfold effective_version in Ht. case_bool_decide; [by left|right].
      by destruct (decide (Version (Meta_Thanos m0) = ThanosVersion1)).
    + apply normalized_Labels.
  - intros m0 m -> Hn. case_bool_decide; [done|]. case_bool_decide; [done|].
    intros [= <-]. by apply normalized_nil.
Qed.

End CodecFacts.

Lemma Read_version_gating_witness :
  (∃ m, Read Demo.scan Demo.uparse Demo.tparse "legacy" = inr m ∧
        Version (Meta_Thanos m) = 0 ∧ Labels (Meta_Thanos m) = Some ∅)
  ∧ (∃ e, Read Demo.scan Demo.uparse Demo.tparse "future" = inl e)
  ∧ (∃ e, Read Demo.scan Demo.uparse Demo.tparse "not json" = inl e).
Proof.
  destruct (Read_version_gating Demo.scan Demo.uparse Demo.tparse "legacy")
    as (_ & _ & _ & _ & H5 & _ & H7).
  destruct (Read_version_gating Demo.scan Demo.uparse Demo.tparse "future")
    as (_ & H2 & _).
  destruct (Read_version_gating Demo.scan Demo.uparse Demo.tparse "not json")
    as (H1 & _).
  split_and!.
  - edestruct H5 as [Hr Hv]; [reflexivity|reflexivity|reflexivity|reflexivity
                              |reflexivity|].
    eexists. split; [exact Hr|]. split; [vm_compute; reflexivity|].
    eapply H7; [reflexivity|reflexivity|exact Hr].
  - eapply H2; [reflexivity|vm_compute; discriminate].
  - eexists. eapply H1. reflexivity.
Defined.

Section DownloadMetaFacts.

Variable json_scan : bytes → option (json * bytes).
Variable ulid_Parse : string → error + string.
Variable time_Parse : string → error + Z.

Local Abbreviation Read' := (Read json_scan ulid_Parse time_Parse).
Local Abbreviation Unmarshal' := (json_Unmarshal_Meta json_scan ulid_Parse time_Parse).
Local Abbreviation DownloadMeta' := (DownloadMeta json_scan ulid_Parse time_Parse).

Lemma DownloadMeta_run id w obj :
  next_fault w = false →
  objects w !! path_Join id MetaFilename = Some obj →
  (DownloadMeta' id w).1 =
  match Unmarshal' obj with
  | inr m => Ok m
  | inl e => Err (ErrWrap e ("unmarshal meta.json for block " +:+ id))
  end.
Proof.
  intros Hf Ho. unfold DownloadMeta, bind, wrap, bkt_Get, store_call, lift.
  rewrite Hf, Ho. simpl. by destruct (Unmarshal' obj).
Qed.

(** C9: DownloadMeta returns what json.Unmarshal produced, unchecked.  For
    a stored descriptor that unmarshals, fetched without a store failure,
    the call succeeds with exactly the unmarshalled value whatever its
    versions are - where Read rejects the same bytes as soon as the
    top-level or the Thanos-section version is unsupported - and a
    descriptor without a labels key comes back with a nil label map, which
    Read would have replaced by the empty map. *)
Theorem DownloadMeta_skips_validation (id : string) (w : World) (obj : bytes)
    (m : Meta) :
  next_fault w = false →
  objects w !! path_Join id MetaFilename = Some obj →
  Unmarshal' obj = inr m →
  (DownloadMeta' id w).1 = Ok m
  ∧ (BlockMeta_Version (Block m) ≠ TSDBVersion1 ∨
     effective_version m ≠ ThanosVersion1 → ∃ e, Read' obj = inl e)
  ∧ (∀ fields tfields rest,
       json_scan obj = Some (JObject fields, rest) →
       jfield "thanos" fields = Some (JObject tfields) →
       jfield "labels" tfields = None →
       Labels (Meta_Thanos m) = None ∧
       ∀ m', Read' obj = inr m' → Labels (Meta_Thanos m') = Some ∅).
Proof.
  intros Hf Ho Hu. pose proof (Unmarshal_Decode _ _ _ _ _ Hu) as Hd.
  split_and!.
  - by rewrite (DownloadMeta_run _ _ _ Hf Ho), Hu.
  - rewrite Read_unfold, Hd. intros [Hv|Hv].
    + rewrite bool_decide_true by done. eauto.
    + case_bool_decide; [eauto|]. rewrite bool_decide_true by done. eauto.
  - intros fields tfields rest Hs Ht Hk.
    pose proof (Decode_scan_inv _ _ _ _ _ _ _ Hs Hd) as Hm.
    destruct (dec_Meta_absent _ _ _ _ _ Hm Ht) as [_ Hl]. specialize (Hl Hk).
    split; [done|]. intros m'. rewrite Read_unfold, Hd.
    case_bool_decide; [done|]. case_bool_decide; [done|].
    intros [= <-]. by apply normalized_nil.
Qed.

End DownloadMetaFacts.

Lemma DownloadMeta_skips_validation_witness :
  ∃ m, (DownloadMeta Demo.scan Demo.uparse Demo.tparse Demo.B Demo.w_future).1 = Ok m
       ∧ BlockMeta_Version (Block m) = 2 ∧ Version (Meta_Thanos m) = 3
       ∧ Labels (Meta_Thanos m) = None
       ∧ ∃ e, Read Demo.scan Demo.uparse Demo.tparse "future" = inl e.
Proof.
  edestruct (DownloadMeta_skips_validation Demo.scan Demo.uparse Demo.tparse
               Demo.B Demo.w_future "future") as (H1 & H2 & H3);
    [reflexivity|reflexivity|reflexivity|].
  eexists. split; [exact H1|]. split; [reflexivity|]. split; [reflexivity|].
  split.
  - eapply H3; reflexivity.
  - apply H2. left. vm_compute. discriminate.
Defined.

(** ** Running computations *)

Lemma bind_inv {A B} (m : M A) (k : A → M B) w r w' :
  bind m k w = (r, w') →
  (∃ a w1, m w = (Ok a, w1) ∧ k a w1 = (r, w'))
  ∨ (∃ e, m w = (Err e, w') ∧ r = Err e)
  ∨ (m w = (OutOfFuel, w') ∧ r = OutOfFuel).
Proof.
  unfold bind. destruct (m w) as [[a|e|] w1]; intros H.
  - left. eauto.
  - right. left. injection H as <- <-. eauto.
  - right. right. by injection H as <- <-.
Qed.

Lemma bind_Ok_inv {A B} (m : M A) (k : A → M B) w b w' :
  bind m k w = (Ok b, w') → ∃ a w1, m w = (Ok a, w1) ∧ k a w1 = (Ok b, w').
Proof.
  intros H. apply bind_inv in H as [H|[(e & _ & H)|[_ H]]]; [done|done..].
Qed.

Lemma bind_Ok {A B} (m : M A) (k : A → M B) w a w1 :
  m w = (Ok a, w1) → bind m k w = k a w1.
Proof. unfold bind. by intros ->. Qed.

Lemma bind_Err {A B} (m : M A) (k : A → M B) w e w1 :
  m w = (Err e, w1) → bind m k w = (Err e, w1).
Proof. unfold bind. by intros ->. Qed.

Lemma wrap_Ok_inv {A} msg (m : M A) w a w' :
  wrap msg m w = (Ok a, w') → m w = (Ok a, w').
Proof. unfold wrap. by destruct (m w) as [[?|?|] ?]. Qed.

Lemma wrap_inv {A} msg (m : M A) w r w' :
  wrap msg m w = (r, w') →
  ∃ r0, m w = (r0, w') ∧
        r = match r0 with Err e => Err (ErrWrap e msg) | _ => r0 end.
Proof.
  unfold wrap. destruct (m w) as [[?|?|] ?]; intros [= <- <-]; eauto.
Qed.

Lemma wrap_Ok {A} msg (m : M A) w a w' :
  m w = (Ok a, w') → wrap msg m w = (Ok a, w').
Proof. unfold wrap. by intros ->. Qed.

Lemma on_error_Ok_inv {A} (m : M A) c w a w' :
  on_error m c w = (Ok a, w') → m w = (Ok a, w').
Proof. unfold on_error. by destruct (m w) as [[?|?|] ?]. Qed.

Lemma fs_call_Ok_inv op act w w' :
  fs_call op act w = (Ok tt, w') →
  ∃ f, act (fs w) = inr f ∧ w' = fs_log op true (set_fs f w).
Proof.
  unfold fs_call. destruct (act (fs w)) as [e|f]; intros [= <-]; eauto.
Qed.

Ltac run_inv :=
  repeat match goal with
         | H : bind _ _ _ = (Ok _, _) |- _ =>
             apply bind_Ok_inv in H as (? & ? & ? & H)
         | H : wrap _ _ _ = (Ok _, _) |- _ => apply wrap_Ok_inv in H
         | H : on_error _ _ _ = (Ok _, _) |- _ => apply on_error_Ok_inv in H
         | H : fs_call _ _ _ = (Ok _, _) |- _ =>
             apply fs_call_Ok_inv in H as (? & ? & ->)
         | H : ret _ _ = (Ok _, _) |- _ => injection H as <- <-
         | x : unit |- _ => destruct x
         end.

(** ** Names *)

Lemma str_app_cons c s t : String c s +:+ t = String c (s +:+ t).
Proof. reflexivity. Qed.

Lemma str_app_nil_l s : "" +:+ s = s.
Proof. reflexivity. Qed.

Lemma str_app_nil_r s : s +:+ "" = s.
Proof. induction s as [|c s IH]; [done|]. by rewrite str_app_cons, IH. Qed.

Lemma str_app_assoc a b c : (a +:+ b) +:+ c = a +:+ b +:+ c.
Proof. induction a as [|x a IH]; [done|]. by rewrite !str_app_cons, IH. Qed.

Lemma str_length_app a b :
  String.length (a +:+ b) = (String.length a + String.length b)%nat.
Proof. induction a as [|x a IH]; [done|]. rewrite str_app_cons. simpl. by rewrite IH. Qed.

Lemma str_app_eq_nil a b : a +:+ b = "" → a = "" ∧ b = "".
Proof. by destruct a. Qed.

Lemma strip_app_same p r : strip p (p +:+ r) = Some r.
Proof.
  induction p as [|c p IH]; [by destruct r|].
  rewrite str_app_cons. simpl. by rewrite decide_True.
Qed.

Lemma strip_Some p s r : strip p s = Some r → s = p +:+ r.
Proof.
  revert s. induction p as [|c p IH]; intros s.
  - destruct s; by intros [= <-].
  - destruct s as [|d s]; [done|]. simpl. case_decide; [|done].
    subst. intros H. by rewrite (IH _ H).
Qed.

Lemma strip_spec p s r : strip p s = Some r ↔ s = p +:+ r.
Proof. split; [apply strip_Some|intros ->; apply strip_app_same]. Qed.

Lemma strip_app p a b : strip (p +:+ a) (p +:+ b) = strip a b.
Proof.
  induction p as [|c p IH]; [done|].
  rewrite !str_app_cons. simpl. by rewrite decide_True.
Qed.

Lemma strip_length p s r :
  strip p s = Some r → String.length s = (String.length p + String.length r)%nat.
Proof. intros ->%strip_Some. apply str_length_app. Qed.

Lemma str_app_neq_self s t : t ≠ "" → s +:+ t ≠ s.
Proof.
  intros Ht H. apply (f_equal String.length) in H. rewrite str_length_app in H.
  destruct t; [done|]. simpl in H. lia.
Qed.

Lemma substring_last c s :
  String.substring (String.length s) 1 (String c s) =
  match s with
  | EmptyString => String c ""
  | _ => String.substring (String.length s - 1) 1 s
  end.
Proof. destruct s as [|d s]; [done|]. simpl. by rewrite Nat.sub_0_r. Qed.

Lemma HasSuffix_sep s : strings_HasSuffix s DirDelim = ends_sep s.
Proof.
  unfold strings_HasSuffix, DirDelim. simpl String.length.
  induction s as [|c s IH]; [done|].
  replace (String.length (String c s) - 1)%nat with (String.length s)
    by (simpl; lia).
  rewrite substring_last. destruct s as [|d s].
  - simpl.
    apply bool_decide_ext. split; [by intros [= ->]|by intros ->].
  - rewrite (bool_decide_true (_ ≤ String.length (String c (String d s)))%nat)
      by (simpl; lia).
    rewrite (bool_decide_true (_ ≤ String.length (String d s))%nat) in IH
      by (simpl; lia).
    exact IH.
Qed.

Lemma ends_sep_app a b : b ≠ "" → ends_sep (a +:+ b) = ends_sep b.
Proof.
  intros Hb. induction a as [|c a IH]; [done|].
  rewrite str_app_cons. simpl. rewrite IH.
  destruct (a +:+ b) eqn:E; [|done].
  apply str_app_eq_nil in E as [_ ->]. done.
Qed.

Lemma ends_sep_spec s : ends_sep s = true ↔ ∃ x, s = x +:+ "/".
Proof.
  split.
  - induction s as [|c s IH]; [done|]. simpl. destruct s as [|d s].
    + intros ->%bool_decide_eq_true. by exists "".
    + intros [x ->]%IH. by exists (String c x).
  - intros [x ->]. by rewrite ends_sep_app.
Qed.

Lemma has_sep_ends s : has_sep s = false → ends_sep s = false.
Proof.
  induction s as [|c s IH]; [done|]. simpl. case_decide; [done|].
  intros Hs. destruct s; [by apply bool_decide_eq_false|by apply IH].
Qed.

(** ** The local descriptor write *)

Lemma RemoveAll_gone (f : gmap string node) p :
  filter (λ kn : string * node, kn.1 ≠ p ∧ strip (p +:+ DirDelim) kn.1 = None) f
    !! p = None.
Proof. apply map_lookup_filter_None. right. intros x _ [H _]. done. Qed.

Lemma RemoveAll_other (f : gmap string node) p q :
  q ≠ p → strip (p +:+ DirDelim) q = None →
  filter (λ kn : string * node, kn.1 ≠ p ∧ strip (p +:+ DirDelim) kn.1 = None) f
    !! q = f !! q.
Proof.
  intros Hq Hs. destruct (f !! q) as [n|] eqn:E.
  - by apply map_lookup_filter_Some.
  - apply map_lookup_filter_None. by left.
Qed.

(** What the filesystem calls of WriteToDir do when they succeed. *)
Lemma os_Create_Ok p w w' :
  os_Create p w = (Ok tt, w') →
  w' = fs_log (OpCreate p) true (set_fs (<[p := NFile ""]> (fs w)) w).
Proof.
  unfold os_Create. intros (f & Hf & ->)%fs_call_Ok_inv.
  case_bool_decide; [done|]. destruct (parent_ok (fs w) p); [|done].
  by injection Hf as <-.
Qed.

Lemma file_Write_Ok p data w w' :
  file_Write p data w = (Ok tt, w') →
  ∃ old, fs w !! p = Some (NFile old) ∧
         w' = fs_log (OpWrite p data) true
                (set_fs (<[p := NFile (old +:+ data)]> (fs w)) w).
Proof.
  unfold file_Write. intros (f & Hf & ->)%fs_call_Ok_inv.
  destruct (fs w !! p) as [[old|]|]; [|done..]. injection Hf as <-. eauto.
Qed.

Lemma fs_sync_Ok op w w' :
  fs_call op inr w = (Ok tt, w') → w' = fs_log op true (set_fs (fs w) w).
Proof. intros (f & Hf & ->)%fs_call_Ok_inv. by injection Hf as <-. Qed.

Lemma os_RemoveAll_Ok p w w' :
  os_RemoveAll p w = (Ok tt, w') →
  w' = fs_log (OpRemoveAll p) true
         (set_fs (filter (λ kn : string * node,
                            kn.1 ≠ p ∧ strip (p +:+ DirDelim) kn.1 = None) (fs w)) w).
Proof.
  unfold os_RemoveAll. intros (f & Hf & ->)%fs_call_Ok_inv. by injection Hf as <-.
Qed.

Lemma os_Rename_file_Ok from to d w w' :
  fs w !! from = Some (NFile d) →
  os_Rename from to w = (Ok tt, w') →
  w' = fs_log (OpRename from to) true
         (set_fs (<[to := NFile d]> (delete from (fs w))) w).
Proof.
  unfold os_Rename. intros Hd (f & Hf & ->)%fs_call_Ok_inv. rewrite Hd in Hf.
  case_bool_decide; [done|]. destruct (parent_ok (fs w) to); [|done].
  by injection Hf as <-.
Qed.

Lemma fileutil_OpenDir_Ok p w w' :
  fileutil_OpenDir p w = (Ok tt, w') →
  w' = fs_log (OpOpenDir p) true (set_fs (fs w) w).
Proof.
  unfold fileutil_OpenDir. intros (f & Hf & ->)%fs_call_Ok_inv.
  destruct (fs w !! p) as [[?|]|]; [done| |done]. by injection Hf as <-.
Qed.

Lemma lift_Ok_inv {A} (r : error + A) w a w' :
  lift r w = (Ok a, w') → r = inr a ∧ w' = w.
Proof. destruct r; [done|]. by intros [= <- <-]. Qed.

Lemma fs_fs_log op ok w : fs (fs_log op ok w) = fs w.
Proof. reflexivity. Qed.
Lemma fs_set_fs f w : fs (set_fs f w) = f.
Proof. reflexivity. Qed.
Lemma fs_trace_fs_log op ok w :
  fs_trace (fs_log op ok w) = fs_trace w ++ [mkFsEvent op ok (fs w)].
Proof. reflexivity. Qed.
Lemma fs_trace_set_fs f w : fs_trace (set_fs f w) = fs_trace w.
Proof. reflexivity. Qed.

Ltac fs_norm :=
  repeat (rewrite ?fs_fs_log, ?fs_set_fs, ?fs_trace_fs_log, ?fs_trace_set_fs).

Section WriteFacts.

Variable json_encode : Meta → error + bytes.

(** A successful WriteToDir makes nine filesystem calls; the fifth removes
    the target, so that between it and the rename that follows nothing is
    at the target path. *)
Lemma WriteToDir_gap m dir w w' :
  WriteToDir json_encode m dir w = (Ok tt, w') →
  let path := filepath_Join dir MetaFilename in
  let tmp := path +:+ ".tmp" in
  let pdir := filepath_Dir path in
  ∃ enc f1 f2 f3 f4,
    json_encode m = inr enc ∧
    fs_trace w' = fs_trace w ++
      [mkFsEvent (OpCreate tmp) true f1;
       mkFsEvent (OpWrite tmp enc) true f2;
       mkFsEvent (OpSync tmp) true f2;
       mkFsEvent (OpClose tmp) true f2;
       mkFsEvent (OpRemoveAll path) true f3;
       mkFsEvent (OpRename tmp path) true f4;
       mkFsEvent (OpOpenDir pdir) true f4;
       mkFsEvent (OpFdatasync pdir) true f4;
       mkFsEvent (OpClose pdir) true f4] ∧
    f2 !! path = fs w !! path ∧
    f3 !! path = None ∧
    f4 !! path = Some (NFile enc) ∧
    fs w' = f4.
Proof.
  intros H. cbv zeta. unfold WriteToDir, renameFile, Meta_Write in H.
  remember (filepath_Join dir MetaFilename) as path eqn:Hp. clear Hp.
  assert (Htmp : path +:+ ".tmp" ≠ path) by (apply str_app_neq_self; done).
  assert (Hstrip : strip (path +:+ DirDelim) (path +:+ ".tmp") = None).
  { by rewrite strip_app. }
  remember (path +:+ ".tmp") as tmp eqn:Ht. clear Ht.
  remember (filepath_Dir path) as pdir eqn:Hd. clear Hd.
  apply bind_Ok_inv in H as ([] & w1 & H1 & H).
  apply bind_Ok_inv in H as ([] & w2 & H2 & H).
  apply bind_Ok_inv in H as ([] & w3 & H3 & H).
  apply bind_Ok_inv in H as ([] & w4 & H4 & H).
  apply bind_Ok_inv in H as ([] & w5 & H5 & H).
  apply bind_Ok_inv in H as ([] & w6 & H6 & H).
  apply bind_Ok_inv in H as ([] & w7 & H7 & H).
  apply bind_Ok_inv in H as ([] & w8 & H8 & H).
  apply on_error_Ok_inv in H2.
  apply bind_Ok_inv in H2 as (enc & w1' & He & H2).
  apply lift_Ok_inv in He as [He ->].
  apply on_error_Ok_inv in H8.
  apply os_Create_Ok in H1. subst w1.
  apply file_Write_Ok in H2 as (old & Hold & ->).
  rewrite fs_fs_log, fs_set_fs, lookup_insert_eq in Hold. injection Hold as <-.
  apply fs_sync_Ok in H3. subst w3.
  apply fs_sync_Ok in H4. subst w4.
  apply os_RemoveAll_Ok in H5. subst w5.
  apply (os_Rename_file_Ok _ _ enc) in H6.
  2:{ fs_norm. rewrite RemoveAll_other by done. fs_norm.
      by rewrite lookup_insert_eq. }
  subst w6.
  apply fileutil_OpenDir_Ok in H7. subst w7.
  apply fs_sync_Ok in H8. subst w8.
  apply fs_sync_Ok in H. subst w'.
  do 5 eexists. split; [exact He|]. split.
  { fs_norm. rewrite <- !app_assoc. reflexivity. }
  split_and!.
  - fs_norm. by rewrite !lookup_insert_ne.
  - apply RemoveAll_gone.
  - apply lookup_insert_eq.
  - by fs_norm.
Qed.

End WriteFacts.

(** C3, at a directory that already holds a descriptor: WriteToDir succeeds
    with the nine filesystem calls create, write, sync and close of the
    temporary file, removal of the target, rename, and open, sync and close
    of the parent directory - and when the removal has returned, the target
    path, which held the old descriptor, holds nothing: the new content
    arrives only with the rename. *)
Theorem WriteToDir_target_absent_midway :
  let path := Demo.blockdir +:+ "/meta.json" in
  let tmp := path +:+ ".tmp" in
  let run := WriteToDir Demo.enc zeroMeta Demo.blockdir Demo.w_block in
  fs Demo.w_block !! path = Some (NFile "labelled") ∧
  run.1 = Ok tt ∧
  fe_op <$> fs_trace run.2 =
    [OpCreate tmp; OpWrite tmp "meta uploaded at 0 with 0 files"; OpSync tmp;
     OpClose tmp; OpRemoveAll path; OpRename tmp path;
     OpOpenDir Demo.blockdir; OpFdatasync Demo.blockdir; OpClose Demo.blockdir] ∧
  (∃ e, fs_trace run.2 !! 4%nat = Some e ∧ fe_op e = OpRemoveAll path ∧
        fe_ok e = true ∧ fe_after e !! path = None) ∧
  fs run.2 !! path = Some (NFile "meta uploaded at 0 with 0 files").
Proof.
  cbv zeta. split_and!.
  - vm_compute. reflexivity.
  - vm_compute. reflexivity.
  - vm_compute. reflexivity.
  - eexists. split; [vm_compute; reflexivity|]. split_and!; vm_compute; reflexivity.
  - vm_compute. reflexivity.
Qed.

(** ** Computations that only read *)

Lemma readonly_run {A} (m : M A) w :
  readonly m → (∃ a, m w = (Ok a, w)) ∨ (∃ e, m w = (Err e, w)).
Proof.
  intros H. destruct (H w) as [H2 H1]. destruct (m w) as [[a|e|] w1]; simpl in *;
    subst; [eauto|eauto|done].
Qed.

Lemma readonly_ret {A} (a : A) : readonly (ret a).
Proof. by intros w. Qed.

Lemma readonly_fail {A} e : readonly (@fail A e).
Proof. by intros w. Qed.

Lemma readonly_lift {A} (r : error + A) : readonly (lift r).
Proof. destruct r; [apply readonly_fail|apply readonly_ret]. Qed.

Lemma readonly_bind {A B} (m : M A) (k : A → M B) :
  readonly m → (∀ a, readonly (k a)) → readonly (bind m k).
Proof.
  intros Hm Hk w. unfold bind.
  destruct (readonly_run m w Hm) as [[a ->]|[e ->]]; [apply Hk|done].
Qed.

Lemma readonly_wrap {A} msg (m : M A) : readonly m → readonly (wrap msg m).
Proof.
  intros Hm w. unfold wrap.
  by destruct (readonly_run m w Hm) as [[a ->]|[e ->]].
Qed.

Lemma readonly_if {A} (b : bool) (m1 m2 : M A) :
  readonly m1 → readonly m2 → readonly (if b then m1 else m2).
Proof. by destruct b. Qed.

Lemma readonly_os_Stat p : readonly (os_Stat p).
Proof. intros w. unfold os_Stat. by destruct (fs w !! p). Qed.

Lemma readonly_os_ReadDir p : readonly (os_ReadDir p).
Proof. intros w. unfold os_ReadDir. by destruct (fs w !! p) as [[?|]|]. Qed.

Lemma readonly_os_ReadFile p : readonly (os_ReadFile p).
Proof. intros w. unfold os_ReadFile. by destruct (fs w !! p) as [[?|]|]. Qed.

Lemma readonly_time_Now : readonly time_Now.
Proof. by intros w. Qed.

Create HintDb readonly.

Global Hint Resolve readonly_ret readonly_fail readonly_lift readonly_wrap
  readonly_os_Stat readonly_os_ReadDir readonly_os_ReadFile readonly_time_Now
  : readonly.

Ltac readonly_tac :=
  repeat first
    [ apply readonly_bind; [|intros ?]
    | apply readonly_wrap
    | apply readonly_if
    | solve [eauto with readonly] ].

Section ReadFacts.

Variable json_scan : bytes → option (json * bytes).
Variable ulid_Parse : string → error + string.
Variable time_Parse : string → error + Z.
Variable sha256_hex : bytes → string.

Lemma readonly_ReadFromDir dir :
  readonly (ReadFromDir json_scan ulid_Parse time_Parse dir).
Proof. unfold ReadFromDir. readonly_tac. Qed.

Lemma readonly_CalculateHash p hf : readonly (CalculateHash sha256_hex p hf).
Proof. unfold CalculateHash. case_decide; readonly_tac. Qed.

Lemma readonly_chunk_stats blockDir hf files res :
  readonly (chunk_stats sha256_hex blockDir hf files res).
Proof.
  revert res. induction files as [|f files IH]; intros res; simpl.
  - apply readonly_ret.
  - readonly_tac. all: try apply readonly_CalculateHash; try apply IH.
Qed.

Lemma readonly_GatherFileStats blockDir hf :
  readonly (GatherFileStats sha256_hex blockDir hf).
Proof.
  unfold GatherFileStats. readonly_tac.
  all: try apply readonly_chunk_stats; try apply readonly_CalculateHash.
Qed.

End ReadFacts.

(** ** Upload: the checks before the transfer *)

Section UploadChecks.

Variable json_scan : bytes → option (json * bytes).
Variable ulid_Parse : string → error + string.
Variable time_Parse : string → error + Z.
Variable json_encode : Meta → error + bytes.
Variable sha256_hex : bytes → string.

Local Abbreviation upload' := (upload json_scan ulid_Parse time_Parse json_encode sha256_hex).
Local Abbreviation ReadFromDir' := (ReadFromDir json_scan ulid_Parse time_Parse).
Local Abbreviation GatherFileStats' := (GatherFileStats sha256_hex).

Lemma os_Stat_run p w :
  os_Stat p w = (match fs w !! p with
                 | Some n => Ok (info_of p n)
                 | None => Err errNotExist
                 end, w).
Proof. unfold os_Stat. by destruct (fs w !! p). Qed.

Lemma info_of_IsDir p n : fi_IsDir (info_of p n) = is_dir n.
Proof. by destruct n. Qed.

Lemma info_of_Name p n : fi_Name (info_of p n) = filepath_Base p.
Proof. by destruct n. Qed.

(** upload either stops with an error in the world it was given, or has
    found a directory with a block id for a name, a readable descriptor
    that passes the label check and the file statistics, and goes on to the
    transfer. *)
Lemma upload_prefix bdir hf check w :
  (∃ e, upload' bdir hf check w = (Err e, w)) ∨
  (∃ id meta files,
     fs w !! bdir = Some NDir ∧
     ulid_Parse (filepath_Base bdir) = inr id ∧
     ReadFromDir' bdir w = (Ok meta, w) ∧
     (check = true → len_Labels (Meta_Thanos meta) ≠ 0%nat) ∧
     GatherFileStats' bdir hf w = (Ok files, w) ∧
     upload' bdir hf check w =
       upload_transfer json_encode bdir id
         (set_Thanos (set_Files files (Meta_Thanos meta)) meta) w).
Proof.
  unfold upload.
  destruct (fs w !! bdir) as [n|] eqn:Hn.
  2:{ left. rewrite (bind_Err _ _ w errNotExist w); [eauto|].
      by rewrite os_Stat_run, Hn. }
  rewrite (bind_Ok _ _ w (info_of bdir n) w) by (by rewrite os_Stat_run, Hn).
  rewrite info_of_IsDir, info_of_Name. destruct n as [d|]; [left; by eauto|].
  cbv beta iota delta [is_dir negb].
  destruct (ulid_Parse (filepath_Base bdir)) as [e|id] eqn:Hid.
  { left. rewrite (bind_Err _ _ w (ErrWrap e "not a block dir") w); [eauto|done]. }
  rewrite (bind_Ok _ _ w id w) by done.
  destruct (readonly_run (ReadFromDir' bdir) w
              (readonly_ReadFromDir _ _ _ _)) as [[meta Hm]|[e Hm]].
  2:{ left. rewrite (bind_Err _ _ w (ErrWrap e "read meta") w); [eauto|].
      unfold wrap. by rewrite Hm. }
  rewrite (bind_Ok _ _ w meta w) by (by apply wrap_Ok).
  destruct (check && bool_decide (len_Labels (Meta_Thanos meta) = 0%nat))
    eqn:Hc; [left; by eauto|].
  destruct (readonly_run (GatherFileStats' bdir hf) w
              (readonly_GatherFileStats _ _ _)) as [[files Hg]|[e Hg]].
  2:{ left. rewrite (bind_Err _ _ w (ErrWrap e "gather meta file stats") w);
        [eauto|]. unfold wrap. by rewrite Hg. }
  rewrite (bind_Ok _ _ w files w) by (by apply wrap_Ok).
  right. exists id, meta, files. split_and!; try done.
  intros ->. simpl in Hc. by apply bool_decide_eq_false in Hc.
Qed.

End UploadChecks.

(** ** Upload: the transfer *)

(** Reduce the projections of an updated world, and nothing else. *)
Ltac w_norm :=
  cbn [fs objects trace faults now counters fs_trace log set_objects
       set_faults set_fs set_counters fs_log fst snd] in *.

Lemma UploadFile_run src dst w :
  UploadFile src dst w =
  match fs w !! src with
  | Some (NFile d) =>
      if next_fault w then
        (Err (ErrWrap errInjected ("upload file " +:+ src +:+ " as " +:+ dst)),
         log (CUpload dst d) false (set_faults (tail (faults w)) w))
      else
        (Ok tt, log (CUpload dst d) true
                  (set_objects (<[dst := d]> (objects w))
                     (set_faults (tail (faults w)) w)))
  | Some NDir => (Err (ErrWrap errIsDir ("open file " +:+ src)), w)
  | None => (Err (ErrWrap errNotExist ("open file " +:+ src)), w)
  end.
Proof.
  unfold UploadFile, bind, wrap, os_ReadFile, bkt_Upload, store_call.
  destruct (fs w !! src) as [[d|]|]; [|done..].
  by destruct (next_fault w).
Qed.

Lemma upload_events_app o l1 l2 :
  upload_events o (l1 ++ l2) =
  upload_events o l1 ++ upload_events (put_all o l1) l2.
Proof.
  revert o. induction l1 as [|[k d] l1 IH]; intros o; [done|].
  simpl. by rewrite IH.
Qed.

Lemma put_all_app o l1 l2 : put_all o (l1 ++ l2) = put_all (put_all o l1) l2.
Proof. unfold put_all. by rewrite foldl_app. Qed.

(** A run of file uploads, one after the other: all of them got through, or
    the run stopped at the first one that could not be read or sent. *)
Lemma forM_UploadFile {A} (src dst : A → string) (l : list A) w r w' :
  forM_ l (λ x, UploadFile (src x) (dst x)) w = (r, w') →
  let items := λ l : list A, (λ x, (dst x, data_at (fs w) (src x))) <$> l in
  fs w' = fs w ∧ now w' = now w ∧
  ((r = Ok tt ∧
    trace w' = trace w ++ upload_events (objects w) (items l) ∧
    objects w' = put_all (objects w) (items l))
   ∨
   (∃ e sent rest failed,
      r = Err e ∧ l = sent ++ rest ∧ rest ≠ [] ∧
      (failed = [] ∨
       ∃ x, head rest = Some x ∧
            failed = [mkEvent (CUpload (dst x) (data_at (fs w) (src x))) false
                        (put_all (objects w) (items sent))]) ∧
      trace w' = trace w ++ upload_events (objects w) (items sent) ++ failed ∧
      objects w' = put_all (objects w) (items sent))).
Proof.
  cbv zeta. revert w r w'. induction l as [|x l IH]; intros w r w' H.
  { injection H as <- <-. split_and!; try done. left.
    split_and!; try done. simpl. by rewrite app_nil_r. }
  change (forM_ (x :: l) ?f) with (bind (f x) (λ _, forM_ l f)) in H.
  cbv beta in H. unfold bind in H. rewrite UploadFile_run in H.
  assert (Hd : ∀ d, fs w !! src x = Some (NFile d) → data_at (fs w) (src x) = d).
  { intros d Hx. unfold data_at. by rewrite Hx. }
  destruct (fs w !! src x) as [[d|]|] eqn:Hx.
  - specialize (Hd d eq_refl). destruct (next_fault w).
    + injection H as <- <-. w_norm. split_and!; try done. right.
      exists (ErrWrap errInjected ("upload file " +:+ src x +:+ " as " +:+ dst x)),
        [], (x :: l), [mkEvent (CUpload (dst x) d) false (objects w)].
      split_and!; try done. right. exists x. by rewrite Hd.
    + apply IH in H as (Hfs & Hnow & H). w_norm. rewrite Hfs, Hnow.
      split_and!; try done.
      destruct H as [(-> & Ht & Ho)|(e & sent & rest & failed & -> & -> & Hr & Hf & Ht & Ho)].
      * left. split_and!; try done.
        -- rewrite Ht. rewrite fmap_cons. simpl. rewrite Hd.
           by rewrite <- app_assoc.
        -- rewrite Ho. rewrite fmap_cons. simpl. by rewrite Hd.
      * right. exists e, (x :: sent), rest, failed. split_and!; try done.
        -- destruct Hf as [->|(y & Hy & ->)]; [by left|right].
           exists y. split; [done|]. rewrite fmap_cons. simpl. by rewrite Hd.
        -- rewrite Ht, fmap_cons. simpl. rewrite Hd. by rewrite <- app_assoc.
        -- rewrite Ho, fmap_cons. simpl. by rewrite Hd.
  - injection H as <- <-. split_and!; try done. right.
    exists (ErrWrap errIsDir ("open file " +:+ src x)), [], (x :: l), [].
    split_and!; try done; [by left|]. simpl. by rewrite app_nil_r.
  - injection H as <- <-. split_and!; try done. right.
    exists (ErrWrap errNotExist ("open file " +:+ src x)), [], (x :: l), [].
    split_and!; try done; [by left|]. simpl. by rewrite app_nil_r.
Qed.

Lemma UploadDir_run srcdir dstdir w r w' :
  UploadDir srcdir dstdir w = (r, w') →
  (∃ e, r = Err e ∧ w' = w) ∨
  forM_ (walk_files (fs w) srcdir)
    (λ rel, UploadFile (filepath_Join srcdir rel) (path_Join dstdir rel)) w
  = (r, w').
Proof.
  unfold UploadDir, bind, wrap. rewrite os_Stat_run.
  destruct (fs w !! srcdir) as [n|]; [|intros [= <- <-]; eauto].
  rewrite info_of_IsDir. destruct n as [d|]; cbn [is_dir negb].
  - intros [= <- <-]. eauto.
  - by right.
Qed.

Lemma bkt_Upload_run name data w :
  bkt_Upload name data w =
  if next_fault w then
    (Err errInjected, log (CUpload name data) false (set_faults (tail (faults w)) w))
  else
    (Ok tt, log (CUpload name data) true
              (set_objects (<[name := data]> (objects w))
                 (set_faults (tail (faults w)) w))).
Proof. unfold bkt_Upload, store_call. by destruct (next_fault w). Qed.

Section UploadTransfer.

Variable json_encode : Meta → error + bytes.

(** Every way the transfer can go is one of the ways listed for an
    upload. *)
Lemma upload_transfer_run bdir id meta w r w' :
  upload_transfer json_encode bdir id meta w = (r, w') →
  upload_run (fs w) bdir id w r w'.
Proof.
  unfold upload_transfer. intros H.
  set (itm := λ rel, (path_Join (path_Join id ChunksDirname) rel,
                      data_at (fs w)
                        (filepath_Join (filepath_Join bdir ChunksDirname) rel))).
  set (chunks := itm <$> walk_files (fs w) (filepath_Join bdir ChunksDirname)).
  set (idx := (path_Join id IndexFilename,
               data_at (fs w) (filepath_Join bdir IndexFilename))).
  assert (Hitems : content_items (fs w) bdir id = chunks ++ [idx]) by done.
  apply bind_inv in H as [([] & w1 & H1 & H)|[(e & H1 & ->)|[H1 ->]]].
  2:{ apply wrap_inv in H1 as (r0 & H1 & Hr). destruct r0 as [|e0|]; try done.
      apply UploadDir_run in H1 as [(e1 & _ & ->)|H1]; [constructor|].
      apply forM_UploadFile in H1 as (_ & _ & [(? & _)|H1]); [done|].
      destruct H1 as (e1 & sent & rest & failed & _ & Hl & Hrest & Hf & Ht & Ho).
      apply (upload_content_failed _ _ _ _ _ (itm <$> sent)
               ((itm <$> rest) ++ [idx]) failed); [| | |exact Ht|exact Ho].
      - rewrite Hitems. unfold chunks. rewrite Hl, fmap_app. by rewrite <- app_assoc.
      - by destruct rest.
      - destruct Hf as [->|(x & Hx & ->)]; [by left|right].
        do 2 eexists. split; [|done]. destruct rest; [done|].
        by injection Hx as ->. }
  2:{ apply wrap_inv in H1 as (r0 & H1 & Hr). destruct r0 as [|e0|]; try done.
      apply UploadDir_run in H1 as [(e1 & ? & _)|H1]; [done|].
      apply forM_UploadFile in H1 as (_ & _ & [(? & _)|(? & ? & ? & ? & ? & _)]);
        done. }
  apply wrap_Ok_inv, UploadDir_run in H1 as [(e1 & ? & _)|H1]; [done|].
  apply forM_UploadFile in H1 as (Hfs1 & Hnow1 & [(_ & Ht & Ho)|(? & ? & ? & ? & ? & _)]);
    [|done].
  assert (Ht1 : trace w1 = trace w ++ upload_events (objects w) chunks) by exact Ht.
  assert (Ho1 : objects w1 = put_all (objects w) chunks) by exact Ho.
  clear Ht Ho.
  apply bind_inv in H as [([] & w2 & H2 & H)|[(e & H2 & ->)|[H2 ->]]].
  2,3: apply wrap_inv in H2 as (r0 & H2 & Hr); rewrite UploadFile_run in H2;
       rewrite Hfs1 in H2.
  2,3: assert (Hd : ∀ d, fs w !! filepath_Join bdir IndexFilename = Some (NFile d) →
                        idx = (path_Join id IndexFilename, d))
         by (intros d Hx; unfold idx, data_at; by rewrite Hx).
  2,3: destruct (fs w !! filepath_Join bdir IndexFilename) as [[d|]|] eqn:Hx;
       [specialize (Hd d eq_refl); destruct (next_fault w1)|..];
       injection H2 as <- <-; try done.
  2:{ apply (upload_content_failed _ _ _ _ _ chunks [idx]
                [mkEvent (CUpload (path_Join id IndexFilename) d) false
                   (put_all (objects w) chunks)]); try done.
      - right. do 2 eexists. split; [by rewrite Hd|done].
      - w_norm. rewrite Ht1, Ho1. by rewrite <- app_assoc. }
  2,3: apply (upload_content_failed _ _ _ _ _ chunks [idx] []); try done;
       [by left|by rewrite app_nil_r].
  apply wrap_Ok_inv in H2. rewrite UploadFile_run, Hfs1 in H2.
  assert (Hd : ∀ d, fs w !! filepath_Join bdir IndexFilename = Some (NFile d) →
                    idx = (path_Join id IndexFilename, d))
    by (intros d Hx; unfold idx, data_at; by rewrite Hx).
  destruct (fs w !! filepath_Join bdir IndexFilename) as [[d|]|] eqn:Hx; [|done..].
  specialize (Hd d eq_refl). destruct (next_fault w1); [done|].
  injection H2 as <-.
  assert (Ht2 : trace (log (CUpload (path_Join id IndexFilename) d) true
                         (set_objects (<[path_Join id IndexFilename := d]> (objects w1))
                            (set_faults (tail (faults w1)) w1)))
                = trace w ++ upload_events (objects w) (content_items (fs w) bdir id)).
  { w_norm. rewrite Ht1, Hitems, upload_events_app, Hd, <- Ho1. simpl.
    by rewrite <- app_assoc. }
  assert (Ho2 : <[path_Join id IndexFilename := d]> (objects w1)
                = put_all (objects w) (content_items (fs w) bdir id)).
  { by rewrite Hitems, put_all_app, Hd, <- Ho1. }
  apply bind_inv in H as [(t & w3 & H3 & H)|[(e & H3 & ->)|[H3 ->]]];
    [|done..].
  injection H3 as <- <-.
  apply bind_inv in H as [(enc & w4 & H4 & H)|[(e & H4 & ->)|[H4 ->]]].
  2:{ apply wrap_inv in H4 as (r0 & H4 & Hr). unfold lift in H4.
      destruct (json_encode _); injection H4 as <- <-; [|done].
      by apply upload_encode_failed. }
  2:{ apply wrap_inv in H4 as (r0 & H4 & Hr). unfold lift in H4.
      destruct (json_encode _); injection H4 as <- <-; done. }
  apply wrap_Ok_inv in H4. apply lift_Ok_inv in H4 as [_ ->].
  apply wrap_inv in H as (r0 & H & ->). rewrite bkt_Upload_run in H.
  destruct (next_fault _); injection H as <- <-.
  - eapply upload_meta_failed; w_norm; [|done].
    rewrite Ht2, Ho2. by rewrite <- app_assoc.
  - eapply upload_done; w_norm; [|by rewrite Ho2].
    rewrite Ht2. by rewrite <- app_assoc.
Qed.

End UploadTransfer.

(** Facts about a run of successful uploads. *)
Lemma upload_events_inv o items e :
  e ∈ upload_events o items →
  ev_ok e = true ∧
  ∃ sent k d rest, items = sent ++ (k, d) :: rest ∧ ev_call e = CUpload k d ∧
                   ev_after e = put_all o (sent ++ [(k, d)]).
Proof.
  revert o. induction items as [|[k d] items IH]; intros o; [by intros ?%elem_of_nil|].
  simpl. intros [->|He]%elem_of_cons.
  - split; [done|]. by exists [], k, d, items.
  - apply IH in He as (Hok & sent & k' & d' & rest & -> & Hc & Ha).
    split; [done|]. by exists ((k, d) :: sent), k', d', rest.
Qed.

Lemma put_all_lookup_ne o items (m : string) :
  m ∉ items.*1 → put_all o items !! m = o !! m.
Proof.
  revert o. induction items as [|[k d] items IH]; intros o Hm; [done|].
  rewrite fmap_cons, not_elem_of_cons in Hm. destruct Hm as [Hk Hm].
  unfold put_all. simpl. fold (put_all (<[k := d]> o) items).
  rewrite IH by done. by rewrite lookup_insert_ne.
Qed.

Lemma put_all_lookup_in o items (k : string) :
  k ∈ items.*1 → is_Some (put_all o items !! k).
Proof.
  revert o. induction items as [|[k' d] items IH]; intros o; [by intros ?%elem_of_nil|].
  rewrite fmap_cons. unfold put_all. simpl. fold (put_all (<[k' := d]> o) items).
  destruct (decide (k ∈ items.*1)) as [Hin|Hnin]; [intros _; by apply IH|].
  intros [->|?]%elem_of_cons; [|done].
  rewrite put_all_lookup_ne by done. rewrite lookup_insert_eq. eauto.
Qed.


(** Names under a block. *)
Lemma path_Join_inj id x y :
  x ≠ "" → y ≠ "" → path_Join id x = path_Join id y → x = y.
Proof.
  intros Hx Hy. unfold path_Join. destruct (decide (id = "")); [done|].
  rewrite !decide_False by done. intros H.
  by do 2 apply String.app_inj in H.
Qed.

Lemma path_Join_assoc a b c :
  b ≠ "" → path_Join (path_Join a b) c = path_Join a (path_Join b c).
Proof.
  intros Hb. unfold path_Join.
  repeat case_decide; subst; try done.
  all: try (by destruct a).
  all: try (by destruct b).
  by rewrite !str_app_assoc.
Qed.

Lemma chunk_name_ne_meta id rel :
  path_Join (path_Join id ChunksDirname) rel ≠ path_Join id MetaFilename.
Proof.
  rewrite path_Join_assoc by done. intros H. apply path_Join_inj in H; [|..|done].
  - unfold path_Join in H. by repeat case_decide.
  - unfold path_Join. by repeat case_decide.
Qed.

Lemma index_name_ne_meta id :
  path_Join id IndexFilename ≠ path_Join id MetaFilename.
Proof. by intros H%path_Join_inj. Qed.

Lemma content_name_ne_meta f bdir id :
  path_Join id MetaFilename ∉ (content_items f bdir id).*1.
Proof.
  unfold content_items. rewrite fmap_app, elem_of_app. intros [H|H].
  - apply list_elem_of_fmap in H as ([k d] & Hk & H).
    apply list_elem_of_fmap in H as (rel & [= -> ->] & _).
    simpl in Hk. symmetry in Hk. by apply chunk_name_ne_meta in Hk.
  - simpl in H. apply list_elem_of_singleton in H. symmetry in H.
    by apply index_name_ne_meta in H.
Qed.

Lemma split_at_last {A} (P : A → Prop) (l : list A) x pre e post :
  Forall (λ y, ¬ P y) l → P e → pre ++ e :: post = l ++ [x] →
  pre = l ∧ e = x ∧ post = [].
Proof.
  revert pre. induction l as [|y l IH]; intros pre Hl He H.
  - destruct pre as [|z pre]; simpl in H.
    + by injection H as -> ->.
    + injection H as -> H. by destruct pre.
  - apply Forall_cons in Hl as [Hy Hl]. destruct pre as [|z pre]; simpl in H.
    + injection H as -> _. done.
    + injection H as -> H. apply IH in H as (-> & -> & ->); done.
Qed.

Lemma upload_events_is_upload o items : Forall is_upload (upload_events o items).
Proof.
  revert o. induction items as [|[k d] items IH]; intros o; constructor; [done|apply IH].
Qed.

Lemma upload_events_not_named o items m :
  m ∉ items.*1 → Forall (λ e, ¬ uploads_name m e) (upload_events o items).
Proof.
  intros Hm. apply Forall_forall. intros e He [d Hd].
  apply upload_events_inv in He as (_ & sent & k & d' & rest & -> & Hc & _).
  rewrite Hc in Hd. injection Hd as -> ->. apply Hm.
  rewrite fmap_app, fmap_cons. apply elem_of_app. right. by left.
Qed.

Section UploadFacts.

Variable json_scan : bytes → option (json * bytes).
Variable ulid_Parse : string → error + string.
Variable time_Parse : string → error + Z.
Variable json_encode : Meta → error + bytes.
Variable sha256_hex : bytes → string.

Local Abbreviation upload' := (upload json_scan ulid_Parse time_Parse json_encode sha256_hex).
Local Abbreviation Upload' := (Upload json_scan ulid_Parse time_Parse json_encode sha256_hex).
Local Abbreviation UploadPromBlock' := (UploadPromBlock json_scan ulid_Parse time_Parse json_encode sha256_hex).
Local Abbreviation ReadFromDir' := (ReadFromDir json_scan ulid_Parse time_Parse).
Local Abbreviation GatherFileStats' := (GatherFileStats sha256_hex).

Lemma upload_runs bdir hf check w id :
  ulid_Parse (filepath_Base bdir) = inr id →
  upload_run (fs w) bdir id w (upload' bdir hf check w).1 (upload' bdir hf check w).2.
Proof.
  intros Hid.
  destruct (upload_prefix json_scan ulid_Parse time_Parse json_encode sha256_hex
              bdir hf check w)
    as [[e ->]|(id' & meta & files & _ & Hid' & _ & _ & _ & ->)].
  - constructor.
  - rewrite Hid in Hid'. injection Hid' as <-.
    eapply upload_transfer_run. apply surjective_pairing.
Qed.

(** The shape of every upload: successful uploads of a first part [sent]
    of the content objects, then at most one more call - a failed upload of
    the next content object or of the descriptor, or the successful upload
    of the descriptor after all content. *)
Lemma upload_shape f bdir id w r w' :
  upload_run f bdir id w r w' →
  ∃ sent rest last,
    content_items f bdir id = sent ++ rest ∧
    trace w' = trace w ++ upload_events (objects w) sent ++ last ∧
    (((∃ e, r = Err e) ∧ objects w' = put_all (objects w) sent ∧
      (last = [] ∨
       ∃ k d, last = [mkEvent (CUpload k d) false (put_all (objects w) sent)] ∧
              (head rest = Some (k, d) ∨
               (rest = [] ∧ k = path_Join id MetaFilename))))
     ∨
     (r = Ok tt ∧ rest = [] ∧
      ∃ enc, last = [mkEvent (CUpload (path_Join id MetaFilename) enc) true
                       (objects w')] ∧
             objects w' = <[path_Join id MetaFilename := enc]>
                            (put_all (objects w) sent))).
Proof.
  intros [e|e sent rest failed w1 Hi Hr Hf Ht Ho|e w1 Ht Ho|e enc w1 Ht Ho|enc w1 Ht Ho].
  - exists [], (content_items f bdir id), []. split_and!; [done|by rewrite app_nil_r|].
    left. split_and!; eauto.
  - exists sent, rest, failed. split_and!; [done..|]. left. split_and!; eauto.
    destruct Hf as [->|(k & d & Hh & ->)]; [by left|right]. eauto 6.
  - exists (content_items f bdir id), [], []. rewrite !app_nil_r.
    split_and!; [done..|]. left. split_and!; eauto.
  - exists (content_items f bdir id), [], [mkEvent (CUpload (path_Join id MetaFilename) enc)
                                            false (put_all (objects w)
                                                     (content_items f bdir id))].
    rewrite !app_nil_r. split_and!; [done..|]. left. split_and!; eauto.
    right. eauto 6.
  - exists (content_items f bdir id), [], [mkEvent (CUpload (path_Join id MetaFilename) enc)
                                            true (objects w1)].
    rewrite !app_nil_r. split_and!; [done..|]. right. split_and!; eauto.
Qed.

(** upload stops before the first store call - an error, and the world as
    it was: store, call log, local disk and counters - when the block
    directory is missing or not a directory, its name is not a block id,
    the descriptor cannot be read or decoded, the label check is on and the
    labels are empty, or the file statistics cannot be gathered. *)
Theorem upload_rejects_before_store bdir hf check w :
  fs w !! bdir ≠ Some NDir
  ∨ (∃ e, ulid_Parse (filepath_Base bdir) = inl e)
  ∨ (∃ e, (ReadFromDir' bdir w).1 = Err e)
  ∨ (check = true ∧ ∃ meta, (ReadFromDir' bdir w).1 = Ok meta ∧
                            len_Labels (Meta_Thanos meta) = 0%nat)
  ∨ (∃ e, (GatherFileStats' bdir hf w).1 = Err e) →
  ∃ e, upload' bdir hf check w = (Err e, w).
Proof.
  intros H.
  destruct (upload_prefix json_scan ulid_Parse time_Parse json_encode sha256_hex
              bdir hf check w)
    as [He|(id & meta & files & Hd & Hid & Hm & Hl & Hg & _)]; [done|].
  exfalso. destruct H as [H|[[e H]|[[e H]|[(-> & m & H & H0)|[e H]]]]].
  - done.
  - by rewrite Hid in H.
  - by rewrite Hm in H.
  - rewrite Hm in H. injection H as <-. by apply Hl.
  - by rewrite Hg in H.
Qed.

(** Upload refuses a block whose descriptor has no labels with the error
    "empty external labels are not allowed", in the world as it was;
    UploadPromBlock does not look at the labels: on the same block it goes
    on to the transfer (when the file statistics can be gathered). *)
Theorem Upload_requires_labels bdir hf w id meta :
  fs w !! bdir = Some NDir →
  ulid_Parse (filepath_Base bdir) = inr id →
  (ReadFromDir' bdir w).1 = Ok meta →
  len_Labels (Meta_Thanos meta) = 0%nat →
  Upload' bdir hf w = (Err errEmptyLabels, w)
  ∧ ∀ files, (GatherFileStats' bdir hf w).1 = Ok files →
      UploadPromBlock' bdir hf w =
      upload_transfer json_encode bdir id
        (set_Thanos (set_Files files (Meta_Thanos meta)) meta) w.
Proof.
  intros Hd Hid Hm Hl.
  assert (Hm' : ReadFromDir' bdir w = (Ok meta, w)).
  { destruct (readonly_run (ReadFromDir' bdir) w (readonly_ReadFromDir _ _ _ _))
      as [[m H]|[e H]]; rewrite H in Hm; cbn [fst] in Hm; [|done].
    by injection Hm as <-. }
  split.
  - unfold Upload, upload.
    rewrite (bind_Ok _ _ w (info_of bdir NDir) w) by (by rewrite os_Stat_run, Hd).
    cbn [info_of fi_IsDir fi_Name negb]. rewrite Hid.
    rewrite (bind_Ok _ _ w id w) by done.
    rewrite (bind_Ok _ _ w meta w) by (by apply wrap_Ok).
    rewrite bool_decide_true by done. done.
  - intros files Hg.
    assert (Hg' : GatherFileStats' bdir hf w = (Ok files, w)).
    { destruct (readonly_run (GatherFileStats' bdir hf) w
                  (readonly_GatherFileStats _ _ _)) as [[fl H]|[e' H]];
        rewrite H in Hg; cbn [fst] in Hg; [|done]. by injection Hg as <-. }
    unfold UploadPromBlock, upload.
    rewrite (bind_Ok _ _ w (info_of bdir NDir) w) by (by rewrite os_Stat_run, Hd).
    cbn [info_of fi_IsDir fi_Name negb]. rewrite Hid.
    rewrite (bind_Ok _ _ w id w) by done.
    rewrite (bind_Ok _ _ w meta w) by (by apply wrap_Ok).
    cbn [andb].
    rewrite (bind_Ok _ _ w files w) by (by apply wrap_Ok).
    reflexivity.
Qed.

(** Meta.json is uploaded as the last item.  Every store call of an upload
    is an Upload call, and a call that uploads the descriptor has nothing
    after it and, before it, exactly the successful uploads of all content
    objects (every regular file below the chunks directory, then the
    index), in order. *)
Theorem upload_descriptor_last bdir hf check w id :
  ulid_Parse (filepath_Base bdir) = inr id →
  ∃ evs,
    trace (upload' bdir hf check w).2 = trace w ++ evs ∧
    Forall is_upload evs ∧
    ∀ pre e post,
      evs = pre ++ e :: post →
      uploads_name (path_Join id MetaFilename) e →
      post = [] ∧ pre = upload_events (objects w) (content_items (fs w) bdir id).
Proof.
  intros Hid.
  destruct (upload_shape _ _ _ _ _ _ (upload_runs bdir hf check w id Hid))
    as (sent & rest & last & Hi & Ht & H).
  pose proof (content_name_ne_meta (fs w) bdir id) as Hne. rewrite Hi in Hne.
  assert (Hsent : Forall (λ e, ¬ uploads_name (path_Join id MetaFilename) e)
                    (upload_events (objects w) sent)).
  { apply upload_events_not_named. intros Hin. apply Hne.
    rewrite fmap_app. apply elem_of_app. by left. }
  exists (upload_events (objects w) sent ++ last). split; [done|].
  destruct H as [(_ & _ & [->|(k & d & -> & Hk)])|(_ & -> & enc & -> & _)].
  - rewrite app_nil_r. split; [apply upload_events_is_upload|].
    intros pre e post Heq Hm. exfalso. rewrite Heq in Hsent.
    apply Forall_app in Hsent as [_ Hs]. apply Forall_cons in Hs as [Hs _]. done.
  - split; [apply Forall_app; split; [apply upload_events_is_upload|by repeat constructor]|].
    intros pre e post Heq Hm. symmetry in Heq.
    apply (split_at_last _ _ _ _ _ _ Hsent Hm) in Heq as (-> & -> & ->).
    split; [done|]. destruct Hm as [d' Hm]. injection Hm as -> _.
    destruct Hk as [Hk|[-> _]]; [|by rewrite Hi, app_nil_r].
    exfalso. apply Hne. rewrite fmap_app. apply elem_of_app. right.
    destruct rest as [|[k' d''] rest]; [done|]. injection Hk as -> ->. by left.
  - split; [apply Forall_app; split; [apply upload_events_is_upload|by repeat constructor]|].
    intros pre e post Heq Hm. symmetry in Heq.
    apply (split_at_last _ _ _ _ _ _ Hsent Hm) in Heq as (-> & -> & ->).
    by rewrite Hi, app_nil_r.
Qed.

(** A reader that sees the descriptor sees the whole block.  When the
    descriptor object is not in the store before the upload, then at every
    logged moment of the upload, and when it has returned, the descriptor is
    in the store only together with every content object; and it is there
    at the end only if the upload returned success. *)
Theorem upload_descriptor_implies_content bdir hf check w id :
  ulid_Parse (filepath_Base bdir) = inr id →
  objects w !! path_Join id MetaFilename = None →
  (∀ evs e k,
     trace (upload' bdir hf check w).2 = trace w ++ evs → e ∈ evs →
     is_Some (ev_after e !! path_Join id MetaFilename) →
     k ∈ (content_items (fs w) bdir id).*1 → is_Some (ev_after e !! k))
  ∧ (is_Some (objects (upload' bdir hf check w).2 !! path_Join id MetaFilename) →
     (upload' bdir hf check w).1 = Ok tt ∧
     ∀ k, k ∈ (content_items (fs w) bdir id).*1 →
          is_Some (objects (upload' bdir hf check w).2 !! k)).
Proof.
  intros Hid Hnone.
  destruct (upload_shape _ _ _ _ _ _ (upload_runs bdir hf check w id Hid))
    as (sent & rest & last & Hi & Ht & H).
  pose proof (content_name_ne_meta (fs w) bdir id) as Hne.
  assert (Hpart : ∀ part more, content_items (fs w) bdir id = part ++ more →
                    put_all (objects w) part !! path_Join id MetaFilename = None).
  { intros part more Hp. rewrite put_all_lookup_ne; [done|].
    intros Hin. apply Hne. rewrite Hp, fmap_app. apply elem_of_app. by left. }
  assert (Hev : ∀ e, e ∈ upload_events (objects w) sent →
                  ev_after e !! path_Join id MetaFilename = None).
  { intros e He. apply upload_events_inv in He as (_ & s1 & k & d & r & Hs & _ & ->).
    apply (Hpart _ (r ++ rest)). rewrite Hi, Hs. by rewrite <- !app_assoc. }
  split.
  - intros evs e k Hevs He Hm Hk. rewrite Ht in Hevs. apply app_inv_head in Hevs.
    subst evs. apply elem_of_app in He as [He|He].
    { apply Hev in He. rewrite He in Hm. by destruct Hm. }
    destruct H as [(_ & _ & [->|(k' & d & -> & _)])|(_ & -> & enc & -> & Ho)].
    + by apply elem_of_nil in He.
    + apply list_elem_of_singleton in He. subst e. cbn [ev_after] in Hm.
      rewrite (Hpart _ _ Hi) in Hm. by destruct Hm.
    + apply list_elem_of_singleton in He. subst e. cbn [ev_after]. rewrite Ho.
      rewrite app_nil_r in Hi. rewrite Hi in Hk.
      rewrite lookup_insert_ne; [by apply put_all_lookup_in|].
      intros <-. apply Hne. by rewrite Hi.
  - intros Hm.
    destruct H as [(_ & Ho & _)|(Hr & -> & enc & _ & Ho)].
    + rewrite Ho, (Hpart _ _ Hi) in Hm. by destruct Hm.
    + split; [done|]. intros k Hk. rewrite Ho. rewrite app_nil_r in Hi.
      rewrite Hi in Hk. rewrite lookup_insert_ne; [by apply put_all_lookup_in|].
      intros <-. apply Hne. by rewrite Hi.
Qed.


End UploadFacts.

Lemma upload_rejects_before_store_witness :
  ∃ e, upload Demo.scan Demo.uparse Demo.tparse Demo.enc Demo.sha
         Demo.blockdir SHA256Func true Demo.w_unlabelled
       = (Err e, Demo.w_unlabelled).
Proof.
  apply upload_rejects_before_store. do 3 right. left. split; [done|].
  eexists. split; vm_compute; reflexivity.
Defined.

Lemma Upload_requires_labels_witness :
  Upload Demo.scan Demo.uparse Demo.tparse Demo.enc Demo.sha
    Demo.blockdir SHA256Func Demo.w_unlabelled
  = (Err errEmptyLabels, Demo.w_unlabelled).
Proof.
  eapply (Upload_requires_labels Demo.scan Demo.uparse Demo.tparse Demo.enc
            Demo.sha Demo.blockdir SHA256Func Demo.w_unlabelled Demo.B).
  - vm_compute. reflexivity.
  - vm_compute. reflexivity.
  - vm_compute. reflexivity.
  - vm_compute. reflexivity.
Defined.

Lemma upload_descriptor_last_witness :
  ∃ evs,
    trace (upload Demo.scan Demo.uparse Demo.tparse Demo.enc Demo.sha
             Demo.blockdir SHA256Func true Demo.w_block).2
    = trace Demo.w_block ++ evs ∧
    Forall is_upload evs ∧
    ∀ pre e post,
      evs = pre ++ e :: post →
      uploads_name (path_Join Demo.B MetaFilename) e →
      post = [] ∧
      pre = upload_events (objects Demo.w_block)
              (content_items (fs Demo.w_block) Demo.blockdir Demo.B).
Proof.
  apply (upload_descriptor_last Demo.scan Demo.uparse Demo.tparse Demo.enc
           Demo.sha Demo.blockdir SHA256Func true Demo.w_block Demo.B).
  vm_compute. reflexivity.
Defined.

Lemma upload_descriptor_implies_content_witness :
  Forall (λ k, is_Some (objects (upload Demo.scan Demo.uparse Demo.tparse
                                   Demo.enc Demo.sha Demo.blockdir SHA256Func
                                   true Demo.w_block).2 !! k))
    (content_items (fs Demo.w_block) Demo.blockdir Demo.B).*1.
Proof.
  apply Forall_forall. intros k Hk.
  apply (upload_descriptor_implies_content Demo.scan Demo.uparse Demo.tparse
           Demo.enc Demo.sha Demo.blockdir SHA256Func true Demo.w_block Demo.B);
    [vm_compute; reflexivity|vm_compute; reflexivity| |exact Hk].
  vm_compute. eauto.
Defined.


(** ** Marks: what is written, and undoing it *)

Lemma setMark_Ok_inv m encode msg c w w' :
  setMark m encode msg c w = (Ok tt, w') →
  (is_Some (objects w !! m) ∧ objects w' = objects w ∧ counters w' = counters w)
  ∨ (objects w !! m = None ∧
     ∃ data, encode (now w) = inr data ∧ objects w' = <[m := data]> (objects w) ∧
             counters w' = <[c := S (counter c w)]> (counters w)).
Proof.
  intros Hrun. pose proof (setMark_runs m encode msg c w) as H.
  rewrite Hrun in H. cbn [fst snd] in H.
  inversion H as [|? ? Hs Ho Hc|? ? ? ? ? ? ? ?| |data ? ? Hn He Ho Hc]; subst.
  - left. eauto.
  - right. eauto.
Qed.

Lemma RemoveMark_Ok_inv id c name w w' :
  RemoveMark id c name w = (Ok tt, w') →
  (objects w !! path_Join id name = None ∧ objects w' = objects w ∧
   counters w' = counters w)
  ∨ (is_Some (objects w !! path_Join id name) ∧
     objects w' = delete (path_Join id name) (objects w) ∧
     counters w' = <[c := S (counter c w)]> (counters w)).
Proof.
  intros Hrun. pose proof (RemoveMark_runs id c name w) as H.
  rewrite Hrun in H. cbn [fst snd] in H.
  inversion H as [|? ? Hn Ho Hc| |? ? Hs Ho Hc]; subst.
  - left. eauto.
  - right. eauto.
Qed.

Lemma setMark_then_remove id name encode msg c1 c2 w w1 w2 :
  setMark (path_Join id name) encode msg c1 w = (Ok tt, w1) →
  RemoveMark id c2 name w1 = (Ok tt, w2) →
  objects w2 = delete (path_Join id name) (objects w) ∧
  counter c2 w2 = S (counter c2 w1) ∧
  (objects w !! path_Join id name = None →
   objects w2 = objects w ∧ counter c1 w1 = S (counter c1 w)).
Proof.
  intros H1 H2.
  pose proof (setMark_marks _ _ _ _ _ _ H1) as Hs.
  apply RemoveMark_Ok_inv in H2 as [(Hn & _)|(_ & Ho2 & Hc2)].
  { rewrite Hn in Hs. by destruct Hs. }
  apply setMark_Ok_inv in H1 as [(Hp & Ho1 & Hc1)|(Hn & data & _ & Ho1 & Hc1)].
  - split_and!.
    + by rewrite Ho2, Ho1.
    + by apply (counter_insert _ _ w1).
    + intros Hn. rewrite Hn in Hp. by destruct Hp.
  - split_and!.
    + rewrite Ho2, Ho1. apply delete_insert_eq.
    + by apply (counter_insert _ _ w1).
    + intros _. split; [|by apply (counter_insert _ _ w)].
      rewrite Ho2, Ho1, delete_insert_eq. by apply delete_id.
Qed.

(** A mark that gets written carries the block id, schema version 1, the
    time of the call and the reason and details given: when a mark-setting
    call succeeds on a store that did not hold the mark, the store differs
    from the old one in the mark object alone, and that object is the
    encoding of this payload. *)
Theorem mark_payload
    (marD : DeletionMark → error + bytes)
    (marC : NoCompactMark → error + bytes)
    (marS : NoDownsampleMark → error + bytes)
    (id reason details c : string) (w w' : World) :
  (MarkForDeletion marD id details c w = (Ok tt, w') →
   objects w !! path_Join id DeletionMarkFilename = None →
   ∃ data, marD (mkDeletionMark id (now w) DeletionMarkVersion1 details) = inr data ∧
           objects w' = <[path_Join id DeletionMarkFilename := data]> (objects w))
  ∧ (MarkForNoCompact marC id reason details c w = (Ok tt, w') →
     objects w !! path_Join id NoCompactMarkFilename = None →
     ∃ data, marC (mkNoCompactMark id NoCompactMarkVersion1 (now w) reason details)
             = inr data ∧
             objects w' = <[path_Join id NoCompactMarkFilename := data]> (objects w))
  ∧ (MarkForNoDownsample marS id reason details c w = (Ok tt, w') →
     objects w !! path_Join id NoDownsampleMarkFilename = None →
     ∃ data, marS (mkNoDownsampleMark id NoDownsampleMarkVersion1 (now w) reason
                     details) = inr data ∧
             objects w' = <[path_Join id NoDownsampleMarkFilename := data]> (objects w)).
Proof.
  split_and!.
  - rewrite MarkForDeletion_setMark.
    intros [(Hp & _)|(_ & data & He & Ho & _)]%setMark_Ok_inv Hn;
      [rewrite Hn in Hp; by destruct Hp|eauto].
  - rewrite MarkForNoCompact_setMark.
    intros [(Hp & _)|(_ & data & He & Ho & _)]%setMark_Ok_inv Hn;
      [rewrite Hn in Hp; by destruct Hp|eauto].
  - rewrite MarkForNoDownsample_setMark.
    intros [(Hp & _)|(_ & data & He & Ho & _)]%setMark_Ok_inv Hn;
      [rewrite Hn in Hp; by destruct Hp|eauto].
Qed.

Lemma mark_payload_witness :
  objects (MarkForDeletion Demo.marD Demo.B "retention" "marked" Demo.w_empty).2
  = <[path_Join Demo.B DeletionMarkFilename := "deletion 7 retention"]> ∅.
Proof.
  destruct (mark_payload Demo.marD Demo.marC Demo.marS Demo.B "manual" "retention"
              "marked" Demo.w_empty
              (MarkForDeletion Demo.marD Demo.B "retention" "marked" Demo.w_empty).2)
    as (H & _ & _).
  destruct H as (data & Hd & Ho); [vm_compute; reflexivity..|].
  rewrite Ho. vm_compute in Hd. by injection Hd as <-.
Defined.

(** Setting a mark and then removing it.  When a mark-setting call and the
    RemoveMark that follows it both succeed, the store is the old store
    without that mark and the removal counter has moved by one; if the mark
    was not there to begin with, the store is exactly the old store and the
    marking counter has moved by one as well. *)
Theorem mark_then_remove
    (marD : DeletionMark → error + bytes)
    (marC : NoCompactMark → error + bytes)
    (marS : NoDownsampleMark → error + bytes)
    (id reason details c1 c2 : string) (w w1 w2 : World) :
  (MarkForDeletion marD id details c1 w = (Ok tt, w1) →
   RemoveMark id c2 DeletionMarkFilename w1 = (Ok tt, w2) →
   objects w2 = delete (path_Join id DeletionMarkFilename) (objects w) ∧
   counter c2 w2 = S (counter c2 w1) ∧
   (objects w !! path_Join id DeletionMarkFilename = None →
    objects w2 = objects w ∧ counter c1 w1 = S (counter c1 w)))
  ∧ (MarkForNoCompact marC id reason details c1 w = (Ok tt, w1) →
     RemoveMark id c2 NoCompactMarkFilename w1 = (Ok tt, w2) →
     objects w2 = delete (path_Join id NoCompactMarkFilename) (objects w) ∧
     counter c2 w2 = S (counter c2 w1) ∧
     (objects w !! path_Join id NoCompactMarkFilename = None →
      objects w2 = objects w ∧ counter c1 w1 = S (counter c1 w)))
  ∧ (MarkForNoDownsample marS id reason details c1 w = (Ok tt, w1) →
     RemoveMark id c2 NoDownsampleMarkFilename w1 = (Ok tt, w2) →
     objects w2 = delete (path_Join id NoDownsampleMarkFilename) (objects w) ∧
     counter c2 w2 = S (counter c2 w1) ∧
     (objects w !! path_Join id NoDownsampleMarkFilename = None →
      objects w2 = objects w ∧ counter c1 w1 = S (counter c1 w))).
Proof.
  split_and!.
  - rewrite MarkForDeletion_setMark. apply setMark_then_remove.
  - rewrite MarkForNoCompact_setMark. apply setMark_then_remove.
  - rewrite MarkForNoDownsample_setMark. apply setMark_then_remove.
Qed.

Lemma mark_then_remove_witness :
  objects (RemoveMark Demo.B "unmarked" DeletionMarkFilename
             (MarkForDeletion Demo.marD Demo.B "retention" "marked" Demo.w_empty).2).2
  = objects Demo.w_empty.
Proof.
  destruct (mark_then_remove Demo.marD Demo.marC Demo.marS Demo.B "manual"
              "retention" "marked" "unmarked" Demo.w_empty
              (MarkForDeletion Demo.marD Demo.B "retention" "marked" Demo.w_empty).2
              (RemoveMark Demo.B "unmarked" DeletionMarkFilename
                 (MarkForDeletion Demo.marD Demo.B "retention" "marked"
                    Demo.w_empty).2).2)
    as (H & _ & _).
  destruct H as (_ & _ & H); [vm_compute; reflexivity..|].
  apply H. vm_compute. reflexivity.
Defined.

(** ** Computations that touch the local disk only *)

Lemma same_store_refl w : same_store w w.
Proof. by repeat split. Qed.

Lemma same_store_trans w1 w2 w3 :
  same_store w1 w2 → same_store w2 w3 → same_store w1 w3.
Proof.
  intros (? & ? & ? & ? & ?) (? & ? & ? & ? & ?). repeat split; congruence.
Qed.

Lemma local_ret {A} (a : A) : local (ret a).
Proof. intros w. apply same_store_refl. Qed.

Lemma local_fail {A} e : local (@fail A e).
Proof. intros w. apply same_store_refl. Qed.

Lemma local_lift {A} (r : error + A) : local (lift r).
Proof. destruct r; [apply local_fail|apply local_ret]. Qed.

Lemma local_readonly {A} (m : M A) : readonly m → local m.
Proof. intros H w. destruct (H w) as [-> _]. apply same_store_refl. Qed.

Lemma local_bind {A B} (m : M A) (k : A → M B) :
  local m → (∀ a, local (k a)) → local (bind m k).
Proof.
  intros Hm Hk w. unfold bind. specialize (Hm w).
  destruct (m w) as [[a|e|] w1]; cbn [snd] in *; [|done..].
  eapply same_store_trans; [exact Hm|apply Hk].
Qed.

Lemma local_wrap {A} msg (m : M A) : local m → local (wrap msg m).
Proof.
  intros Hm w. unfold wrap. specialize (Hm w).
  by destruct (m w) as [[a|e|] w1].
Qed.

Lemma local_on_error {A} (m : M A) c : local m → local c → local (on_error m c).
Proof.
  intros Hm Hc w. unfold on_error. specialize (Hm w).
  destruct (m w) as [[a|e|] w1]; cbn [snd] in *; [done| |done].
  eapply same_store_trans; [exact Hm|apply Hc].
Qed.

Lemma local_fs_call op act : local (fs_call op act).
Proof. intros w. unfold fs_call. by destruct (act (fs w)). Qed.

Create HintDb local.
Global Hint Resolve local_ret local_fail local_lift local_fs_call : local.

Ltac local_tac :=
  repeat first
    [ apply local_bind; [|intros ?]
    | apply local_wrap
    | apply local_on_error
    | apply local_fs_call
    | solve [eauto with local] ].

Lemma local_WriteToDir json_encode m dir : local (WriteToDir json_encode m dir).
Proof.
  unfold WriteToDir, renameFile, Meta_Write, os_Create, file_Write, file_Sync,
    file_Close, os_RemoveAll, os_Rename, fileutil_OpenDir, fileutil_Fdatasync.
  local_tac.
Qed.

(** ** The local descriptor write: what it leaves on disk *)

Lemma RemoveAll_below (f : gmap string node) p q :
  is_Some (strip (p +:+ DirDelim) q) →
  filter (λ kn : string * node, kn.1 ≠ p ∧ strip (p +:+ DirDelim) kn.1 = None) f
    !! q = None.
Proof.
  intros [r Hr]. apply map_lookup_filter_None. right. intros x _ [_ H].
  cbn [fst] in H. by rewrite Hr in H.
Qed.

Lemma strip_self_sep p : strip (p +:+ DirDelim) p = None.
Proof.
  destruct (strip (p +:+ DirDelim) p) as [r|] eqn:E; [|done].
  apply strip_length in E. rewrite str_length_app in E. simpl in E. lia.
Qed.

Lemma os_Create_run p w :
  os_Create p w =
  if bool_decide (fs w !! p = Some NDir) then
    (Err errIsDir, fs_log (OpCreate p) false w)
  else if parent_ok (fs w) p then
    (Ok tt, fs_log (OpCreate p) true (set_fs (<[p := NFile ""]> (fs w)) w))
  else (Err errNotExist, fs_log (OpCreate p) false w).
Proof.
  unfold os_Create, fs_call. case_bool_decide; [done|].
  by destruct (parent_ok (fs w) p).
Qed.

Section WriteResults.

Variable json_encode : Meta → error + bytes.

(** The disk after a successful WriteToDir, as a function of the disk
    before it. *)
Lemma WriteToDir_Ok_fs m dir w w' :
  WriteToDir json_encode m dir w = (Ok tt, w') →
  let path := filepath_Join dir MetaFilename in
  let tmp := path +:+ ".tmp" in
  ∃ enc,
    json_encode m = inr enc ∧
    fs w' = <[path := NFile enc]>
              (delete tmp
                 (filter (λ kn : string * node,
                            kn.1 ≠ path ∧ strip (path +:+ DirDelim) kn.1 = None)
                    (<[tmp := NFile enc]> (<[tmp := NFile ""]> (fs w))))).
Proof.
  intros H. cbv zeta. unfold WriteToDir, renameFile, Meta_Write in H.
  remember (filepath_Join dir MetaFilename) as path eqn:Hp. clear Hp.
  assert (Htmp : path +:+ ".tmp" ≠ path) by (apply str_app_neq_self; done).
  assert (Hstrip : strip (path +:+ DirDelim) (path +:+ ".tmp") = None).
  { by rewrite strip_app. }
  remember (path +:+ ".tmp") as tmp eqn:Ht. clear Ht.
  remember (filepath_Dir path) as pdir eqn:Hd. clear Hd.
  apply bind_Ok_inv in H as ([] & w1 & H1 & H).
  apply bind_Ok_inv in H as ([] & w2 & H2 & H).
  apply bind_Ok_inv in H as ([] & w3 & H3 & H).
  apply bind_Ok_inv in H as ([] & w4 & H4 & H).
  apply bind_Ok_inv in H as ([] & w5 & H5 & H).
  apply bind_Ok_inv in H as ([] & w6 & H6 & H).
  apply bind_Ok_inv in H as ([] & w7 & H7 & H).
  apply bind_Ok_inv in H as ([] & w8 & H8 & H).
  apply on_error_Ok_inv in H2.
  apply bind_Ok_inv in H2 as (enc & w1' & He & H2).
  apply lift_Ok_inv in He as [He ->].
  apply on_error_Ok_inv in H8.
  apply os_Create_Ok in H1. subst w1.
  apply file_Write_Ok in H2 as (old & Hold & ->).
  rewrite fs_fs_log, fs_set_fs, lookup_insert_eq in Hold. injection Hold as <-.
  apply fs_sync_Ok in H3. subst w3.
  apply fs_sync_Ok in H4. subst w4.
  apply os_RemoveAll_Ok in H5. subst w5.
  apply (os_Rename_file_Ok _ _ enc) in H6.
  2:{ fs_norm. rewrite RemoveAll_other by done. fs_norm.
      by rewrite lookup_insert_eq. }
  subst w6.
  apply fileutil_OpenDir_Ok in H7. subst w7.
  apply fs_sync_Ok in H8. subst w8.
  apply fs_sync_Ok in H. subst w'.
  exists enc. split; [done|]. by fs_norm.
Qed.

(** After a successful WriteToDir the target holds exactly the encoded
    descriptor and the temporary file is gone; every path that is not the
    target, the temporary file or below the target is as before; whatever
    was below the target path (had it been a directory) has been removed. *)
Theorem WriteToDir_result m dir w w' :
  WriteToDir json_encode m dir w = (Ok tt, w') →
  let path := filepath_Join dir MetaFilename in
  let tmp := path +:+ ".tmp" in
  ∃ enc,
    json_encode m = inr enc ∧
    fs w' !! path = Some (NFile enc) ∧
    fs w' !! tmp = None ∧
    (∀ q, is_Some (strip (path +:+ DirDelim) q) → fs w' !! q = None) ∧
    (∀ q, q ≠ path → q ≠ tmp → strip (path +:+ DirDelim) q = None →
          fs w' !! q = fs w !! q) ∧
    objects w' = objects w ∧ trace w' = trace w.
Proof.
  intros H. cbv zeta.
  destruct (WriteToDir_Ok_fs _ _ _ _ H) as (enc & He & Hfs).
  destruct (local_WriteToDir json_encode m dir w) as (Hobj & Htr & _).
  rewrite H in Hobj, Htr. cbn [snd] in Hobj, Htr.
  remember (filepath_Join dir MetaFilename) as path eqn:Hp. clear Hp.
  assert (Htmp : path +:+ ".tmp" ≠ path) by (apply str_app_neq_self; done).
  assert (Hstrip : strip (path +:+ DirDelim) (path +:+ ".tmp") = None).
  { by rewrite strip_app. }
  remember (path +:+ ".tmp") as tmp eqn:Ht. clear Ht.
  exists enc. split; [done|]. rewrite Hfs. split_and!.
  - apply lookup_insert_eq.
  - rewrite lookup_insert_ne by done. apply lookup_delete_eq.
  - intros q Hq.
    assert (q ≠ path) by (intros ->; rewrite strip_self_sep in Hq; by destruct Hq).
    assert (q ≠ tmp) by (intros ->; rewrite Hstrip in Hq; by destruct Hq).
    rewrite lookup_insert_ne, lookup_delete_ne by done. by apply RemoveAll_below.
  - intros q Hq1 Hq2 Hq3.
    rewrite lookup_insert_ne, lookup_delete_ne by done.
    rewrite RemoveAll_other by done. by rewrite !lookup_insert_ne.
  - exact Hobj.
  - exact Htr.
Qed.

End WriteResults.

Lemma WriteToDir_result_witness :
  ∃ enc,
    Demo.enc zeroMeta = inr enc ∧
    fs (WriteToDir Demo.enc zeroMeta Demo.blockdir Demo.w_block).2
      !! filepath_Join Demo.blockdir MetaFilename = Some (NFile enc) ∧
    fs (WriteToDir Demo.enc zeroMeta Demo.blockdir Demo.w_block).2
      !! (filepath_Join Demo.blockdir MetaFilename +:+ ".tmp") = None.
Proof.
  assert (H1 : (WriteToDir Demo.enc zeroMeta Demo.blockdir Demo.w_block).1 = Ok tt)
    by (vm_compute; reflexivity).
  destruct (WriteToDir_result Demo.enc zeroMeta Demo.blockdir Demo.w_block
              (WriteToDir Demo.enc zeroMeta Demo.blockdir Demo.w_block).2)
    as (enc & He & Hp & Ht & _).
  { rewrite <- H1. apply surjective_pairing. }
  exists enc. by split_and!.
Defined.

Section WriteRead.

Variable json_scan : bytes → option (json * bytes).
Variable ulid_Parse : string → error + string.
Variable time_Parse : string → error + Z.
Variable json_encode : Meta → error + bytes.

Local Abbreviation ReadFromDir' := (ReadFromDir json_scan ulid_Parse time_Parse).
Local Abbreviation Read' := (Read json_scan ulid_Parse time_Parse).
Local Abbreviation InjectThanos' := (InjectThanos json_scan ulid_Parse time_Parse json_encode).

Lemma ReadFromDir_file dir w d :
  fs w !! filepath_Join dir MetaFilename = Some (NFile d) →
  ReadFromDir' dir w = (match Read' d with inr m => Ok m | inl e => Err e end, w).
Proof.
  intros H. unfold ReadFromDir, bind, os_ReadFile, lift. rewrite H.
  by destruct (Read' d).
Qed.

(** Reading back what was written: after a successful WriteToDir,
    ReadFromDir on the same directory decodes exactly the bytes the encoder
    produced for the descriptor written, and changes nothing. *)
Theorem WriteToDir_read_back m dir w w' :
  WriteToDir json_encode m dir w = (Ok tt, w') →
  ∃ enc, json_encode m = inr enc ∧
         ReadFromDir' dir w' =
         (match Read' enc with inr m' => Ok m' | inl e => Err e end, w').
Proof.
  intros H. destruct (WriteToDir_result json_encode _ _ _ _ H) as (enc & He & Hp & _).
  exists enc. split; [done|]. by apply ReadFromDir_file.
Qed.

(** When the descriptor cannot be encoded, WriteToDir fails and the old
    descriptor stays as it is - but the temporary file is not removed: if it
    could be created, the call returns the encoder's error and leaves an
    empty meta.json.tmp behind. *)
Theorem WriteToDir_encode_failure m dir w e :
  json_encode m = inl e →
  let path := filepath_Join dir MetaFilename in
  let tmp := path +:+ ".tmp" in
  (∃ e', (WriteToDir json_encode m dir w).1 = Err e') ∧
  fs (WriteToDir json_encode m dir w).2 !! path = fs w !! path ∧
  (fs w !! tmp ≠ Some NDir → parent_ok (fs w) tmp = true →
   (WriteToDir json_encode m dir w).1 = Err e ∧
   fs (WriteToDir json_encode m dir w).2 !! tmp = Some (NFile "")).
Proof.
  intros He. cbv zeta. unfold WriteToDir, Meta_Write.
  remember (filepath_Join dir MetaFilename) as path eqn:Hp. clear Hp.
  assert (Htmp : path +:+ ".tmp" ≠ path) by (apply str_app_neq_self; done).
  remember (path +:+ ".tmp") as tmp eqn:Ht. clear Ht.
  pose proof (os_Create_run tmp w) as Hc.
  case_bool_decide as Hdir.
  { rewrite (bind_Err _ _ _ _ _ Hc). split_and!; [by eauto|done|done]. }
  destruct (parent_ok (fs w) tmp).
  2:{ rewrite (bind_Err _ _ _ _ _ Hc). split_and!; [by eauto|done|done]. }
  rewrite (bind_Ok _ _ _ _ _ Hc).
  set (w1 := fs_log (OpCreate tmp) true (set_fs (<[tmp := NFile ""]> (fs w)) w)).
  assert (Hw : on_error (enc <- lift (json_encode m);; file_Write tmp enc)
                 (file_Close tmp) w1
               = (Err e, fs_log (OpClose tmp) true (set_fs (fs w1) w1))).
  { unfold on_error, bind, lift. rewrite He. reflexivity. }
  rewrite (bind_Err _ _ _ _ _ Hw). unfold w1. cbn [fst snd]. fs_norm.
  split_and!; [by eauto|by rewrite lookup_insert_ne|].
  intros _ _. split; [done|]. by rewrite lookup_insert_eq.
Qed.

(** InjectThanos replaces the Thanos section as a whole and keeps the TSDB
    part of the descriptor found on disk, except that the compaction is
    taken from the downsampled meta when one is given; on success that
    descriptor is returned and its encoding is what meta.json holds.  When
    the descriptor on disk cannot be read, InjectThanos fails without
    touching anything. *)
Theorem InjectThanos_result bdir meta downsampledMeta w :
  (∀ newMeta w',
     InjectThanos' bdir meta downsampledMeta w = (Ok newMeta, w') →
     ∃ old enc,
       ReadFromDir' bdir w = (Ok old, w) ∧
       Meta_Thanos newMeta = meta ∧
       Compaction (Block newMeta) =
         match downsampledMeta with
         | Some d => Compaction d
         | None => Compaction (Block old)
         end ∧
       ULID (Block newMeta) = ULID (Block old) ∧
       MinTime (Block newMeta) = MinTime (Block old) ∧
       MaxTime (Block newMeta) = MaxTime (Block old) ∧
       Stats (Block newMeta) = Stats (Block old) ∧
       BlockMeta_Version (Block newMeta) = BlockMeta_Version (Block old) ∧
       json_encode newMeta = inr enc ∧
       fs w' !! filepath_Join bdir MetaFilename = Some (NFile enc))
  ∧ (∀ e, (ReadFromDir' bdir w).1 = Err e →
          InjectThanos' bdir meta downsampledMeta w
          = (Err (ErrWrap e "read new meta"), w)).
Proof.
  split.
  - intros newMeta w' H. unfold InjectThanos in H.
    apply bind_Ok_inv in H as (old & w1 & H1 & H). apply wrap_Ok_inv in H1.
    destruct (readonly_run (ReadFromDir' bdir) w (readonly_ReadFromDir _ _ _ _))
      as [[m0 Hr]|[e Hr]]; rewrite Hr in H1; [|done]. injection H1 as -> <-.
    apply bind_Ok_inv in H as ([] & w2 & H2 & H). apply wrap_Ok_inv in H2.
    injection H as <- <-.
    destruct (WriteToDir_result json_encode _ _ _ _ H2) as (enc & He & Hp & _).
    exists old, enc. split; [done|]. by destruct downsampledMeta.
  - intros e He. unfold InjectThanos.
    destruct (readonly_run (ReadFromDir' bdir) w (readonly_ReadFromDir _ _ _ _))
      as [[m0 Hr]|[e' Hr]]; rewrite Hr in He; [done|]. injection He as ->.
    apply bind_Err. unfold wrap. by rewrite Hr.
Qed.

End WriteRead.

Lemma WriteToDir_read_back_witness :
  ∃ enc, Demo.enc zeroMeta = inr enc ∧
         ReadFromDir Demo.scan Demo.uparse Demo.tparse Demo.blockdir
           (WriteToDir Demo.enc zeroMeta Demo.blockdir Demo.w_block).2
         = (match Read Demo.scan Demo.uparse Demo.tparse enc with
            | inr m' => Ok m'
            | inl e => Err e
            end, (WriteToDir Demo.enc zeroMeta Demo.blockdir Demo.w_block).2).
Proof.
  apply (WriteToDir_read_back Demo.scan Demo.uparse Demo.tparse Demo.enc zeroMeta
           Demo.blockdir Demo.w_block).
  assert (H1 : (WriteToDir Demo.enc zeroMeta Demo.blockdir Demo.w_block).1 = Ok tt)
    by (vm_compute; reflexivity).
  rewrite <- H1. apply surjective_pairing.
Defined.

Lemma WriteToDir_encode_failure_witness :
  (WriteToDir Demo.enc_fail zeroMeta Demo.blockdir Demo.w_block).1
  = Err (ErrNew "json: unsupported value")
  ∧ fs (WriteToDir Demo.enc_fail zeroMeta Demo.blockdir Demo.w_block).2
      !! (filepath_Join Demo.blockdir MetaFilename +:+ ".tmp") = Some (NFile "")
  ∧ fs (WriteToDir Demo.enc_fail zeroMeta Demo.blockdir Demo.w_block).2
      !! filepath_Join Demo.blockdir MetaFilename = Some (NFile "labelled").
Proof.
  destruct (WriteToDir_encode_failure Demo.enc_fail zeroMeta Demo.blockdir
              Demo.w_block (ErrNew "json: unsupported value") eq_refl)
    as (_ & Hp & H).
  destruct H as [H1 H2]; [vm_compute; discriminate|vm_compute; reflexivity|].
  split_and!; [done..|]. rewrite Hp. vm_compute. reflexivity.
Defined.

Lemma InjectThanos_result_witness :
  ∃ newMeta enc,
    (InjectThanos Demo.scan Demo.uparse Demo.tparse Demo.enc Demo.blockdir
       Demo.sidecar_section None Demo.w_block).1 = Ok newMeta ∧
    Meta_Thanos newMeta = Demo.sidecar_section ∧
    Demo.enc newMeta = inr enc ∧
    fs (InjectThanos Demo.scan Demo.uparse Demo.tparse Demo.enc Demo.blockdir
          Demo.sidecar_section None Demo.w_block).2
      !! filepath_Join Demo.blockdir MetaFilename = Some (NFile enc).
Proof.
  destruct (InjectThanos Demo.scan Demo.uparse Demo.tparse Demo.enc Demo.blockdir
              Demo.sidecar_section None Demo.w_block) as [r w'] eqn:E.
  assert (Hr : ∃ m, r = Ok m).
  { apply (f_equal fst) in E. vm_compute in E. subst r. eauto. }
  destruct Hr as [newMeta ->].
  destruct (InjectThanos_result Demo.scan Demo.uparse Demo.tparse Demo.enc
              Demo.blockdir Demo.sidecar_section None Demo.w_block) as [H _].
  destruct (H newMeta w' E) as (old & enc & _ & Ht & _ & _ & _ & _ & _ & _ & He & Hp).
  exists newMeta, enc. by split_and!.
Defined.

(** ** GatherFileStats *)

Section StatFacts.

Variable sha256_hex : bytes → string.

Local Abbreviation CalculateHash' := (CalculateHash sha256_hex).
Local Abbreviation GatherFileStats' := (GatherFileStats sha256_hex).

Lemma CalculateHash_Ok_inv p hf w h w' :
  CalculateHash' p hf w = (Ok h, w') →
  hf = SHA256Func ∧ w' = w ∧ h = hash_at sha256_hex (fs w) p ∧
  ∃ d, fs w !! p = Some (NFile d).
Proof.
  unfold CalculateHash. case_decide as Hhf; [|done]. intros H.
  apply bind_Ok_inv in H as (d & w1 & H1 & H). apply wrap_Ok_inv in H1.
  unfold os_ReadFile in H1. destruct (fs w !! p) as [[d'|]|] eqn:Hp; [|done..].
  injection H1 as -> <-. injection H as <- <-.
  split_and!; [done..| |by eauto]. unfold hash_at, data_at. by rewrite Hp.
Qed.

Lemma chunk_stats_Ok blockDir hf files res w out w' :
  chunk_stats sha256_hex blockDir hf files res w = (Ok out, w') →
  out = res ++ (chunk_stat sha256_hex (fs w) blockDir hf <$> files).
Proof.
  revert res w. induction files as [|f files IH]; intros res w H.
  { injection H as <- <-. by rewrite app_nil_r. }
  cbn [chunk_stats] in H.
  apply bind_Ok_inv in H as (fi & w1 & H1 & H). apply wrap_Ok_inv in H1.
  apply lift_Ok_inv in H1 as [Hfi ->].
  apply bind_Ok_inv in H as (mf & w2 & H2 & H).
  assert (Hmf : mf = chunk_stat sha256_hex (fs w) blockDir hf f ∧ w2 = w).
  { unfold chunk_stat. rewrite Hfi.
    destruct (bool_decide (hf ≠ NoneFunc) && negb (de_IsDir f)).
    - apply bind_Ok_inv in H2 as (h & w3 & H3 & H2). apply wrap_Ok_inv in H3.
      apply CalculateHash_Ok_inv in H3 as (_ & -> & -> & _).
      by injection H2 as <- <-.
    - by injection H2 as <- <-. }
  destruct Hmf as [-> ->]. apply IH in H. rewrite H, fmap_cons.
  by rewrite <- app_assoc.
Qed.

(** The manifest GatherFileStats returns is the sorted list of what it
    records for the entries of the chunks directory, the index and the
    descriptor. *)
Lemma GatherFileStats_Ok blockDir hf w res w' :
  GatherFileStats' blockDir hf w = (Ok res, w') →
  res = sort_Slice (stats_unsorted sha256_hex (fs w) blockDir hf) ∧
  fs w !! filepath_Join blockDir ChunksDirname = Some NDir ∧
  is_Some (fs w !! filepath_Join blockDir IndexFilename) ∧
  is_Some (fs w !! filepath_Join blockDir MetaFilename) ∧
  (hf ≠ NoneFunc →
   hf = SHA256Func ∧
   ∃ d, fs w !! filepath_Join blockDir IndexFilename = Some (NFile d)).
Proof.
  unfold GatherFileStats. intros H.
  apply bind_Ok_inv in H as (files & w1 & H1 & H). apply wrap_Ok_inv in H1.
  unfold os_ReadDir in H1.
  destruct (fs w !! filepath_Join blockDir ChunksDirname) as [[?|]|] eqn:Hc;
    [done| |done].
  injection H1 as <- <-.
  apply bind_Ok_inv in H as (res0 & w2 & H2 & H).
  pose proof (readonly_chunk_stats sha256_hex blockDir hf
                (read_dir (fs w) (filepath_Join blockDir ChunksDirname)) [] w)
    as [Hw _].
  rewrite H2 in Hw. cbn [snd] in Hw. subst w2.
  apply chunk_stats_Ok in H2. rewrite app_nil_l in H2. subst res0.
  apply bind_Ok_inv in H as (indexFile & w3 & H3 & H). apply wrap_Ok_inv in H3.
  rewrite os_Stat_run in H3.
  destruct (fs w !! filepath_Join blockDir IndexFilename) as [n|] eqn:Hi; [|done].
  injection H3 as <- <-.
  apply bind_Ok_inv in H as (mf & w4 & H4 & H).
  assert (Hmf : mf = index_stat sha256_hex (fs w) blockDir hf ∧ w4 = w ∧
                (hf ≠ NoneFunc →
                 hf = SHA256Func ∧
                 ∃ d, fs w !! filepath_Join blockDir IndexFilename = Some (NFile d))).
  { unfold index_stat. rewrite Hi. rewrite info_of_Name in H4.
    case_bool_decide as Hhf.
    - apply bind_Ok_inv in H4 as (h & w5 & H5 & H4). apply wrap_Ok_inv in H5.
      apply CalculateHash_Ok_inv in H5 as (Hs & -> & -> & d & Hd).
      injection H4 as <- <-. split_and!; [done..|]. intros _. split; [done|].
      exists d. by rewrite <- Hi.
    - injection H4 as <- <-. split_and!; [done..|]. intros ?. done. }
  destruct Hmf as (-> & -> & Hhash).
  apply bind_Ok_inv in H as (metaFile & w5 & H5 & H). apply wrap_Ok_inv in H5.
  rewrite os_Stat_run in H5.
  destruct (fs w !! filepath_Join blockDir MetaFilename) as [n'|] eqn:Hm; [|done].
  injection H5 as <- <-. injection H as <- <-.
  rewrite info_of_Name. split_and!; [|done|by eauto|by eauto|].
  - unfold stats_unsorted, meta_stat. by rewrite <- app_assoc.
  - intros Hhf. destruct (Hhash Hhf) as (? & d & Hd). split; [done|].
    exists d. by rewrite <- Hi.
Qed.

End StatFacts.

(** The last element of a joined path. *)
Lemma rev_app_rev_app a b c :
  String.rev_app (String.rev_app a b) c = String.rev_app b (a +:+ c).
Proof.
  revert b. induction a as [|x a IH]; intros b; [done|].
  cbn [String.rev_app]. by rewrite IH.
Qed.

Lemma base_go_nosep acc n :
  has_sep n = false → base_go acc n = String.rev (String.rev_app n acc).
Proof.
  revert acc. induction n as [|c n IH]; intros acc; [done|].
  cbn [has_sep base_go String.rev_app]. case_decide; [done|]. apply IH.
Qed.

Lemma base_go_app_sep acc d n :
  base_go acc (d +:+ String "/" n) = base_go "" n.
Proof.
  revert acc. induction d as [|c d IH]; intros acc.
  - rewrite str_app_nil_l. cbn [base_go]. by rewrite decide_True.
  - rewrite str_app_cons. cbn [base_go]. case_decide; apply IH.
Qed.

Lemma filepath_Base_nosep n :
  n ≠ "" → has_sep n = false → filepath_Base n = n.
Proof.
  intros Hn Hs. unfold filepath_Base. rewrite decide_False by done.
  unfold trim_slash. rewrite HasSuffix_sep, has_sep_ends by done.
  rewrite base_go_nosep by done. unfold String.rev.
  rewrite rev_app_rev_app. cbn [String.rev_app]. apply str_app_nil_r.
Qed.

Lemma filepath_Base_Join d n :
  n ≠ "" → has_sep n = false → filepath_Base (filepath_Join d n) = n.
Proof.
  intros Hn Hs. unfold filepath_Join, path_Join.
  destruct (decide (d = "")); [by apply filepath_Base_nosep|].
  rewrite decide_False by done. unfold filepath_Base.
  rewrite decide_False by (by destruct d). unfold trim_slash.
  rewrite HasSuffix_sep.
  rewrite ends_sep_app by done.
  rewrite ends_sep_app, has_sep_ends by done.
  unfold DirDelim. rewrite str_app_cons, str_app_nil_l, base_go_app_sep.
  rewrite base_go_nosep by done. unfold String.rev.
  rewrite rev_app_rev_app. cbn [String.rev_app]. apply str_app_nil_r.
Qed.

(** The order of the manifest. *)
Lemma not_after_le a b : not_after a b ↔ String.le (RelPath a) (RelPath b).
Proof.
  unfold not_after, less, strings_Compare, String.le, String.leb.
  rewrite (String.compare_antisym (RelPath a) (RelPath b)).
  destruct (String.compare (RelPath b) (RelPath a)); simpl; naive_solver.
Qed.

Global Instance not_after_total : Total not_after.
Proof.
  intros a b. rewrite !not_after_le. apply String.le_total.
Qed.

Global Instance not_after_trans : Transitive not_after.
Proof.
  intros a b c. rewrite !not_after_le. apply transitivity.
Qed.

Lemma StronglySorted_impl {A} (R1 R2 : relation A) l :
  (∀ a b, R1 a b → R2 a b) → StronglySorted R1 l → StronglySorted R2 l.
Proof.
  intros HR. induction 1 as [|x l Hl IH Hx]; constructor; [done|].
  eapply Forall_impl; [exact Hx|]. intros y. apply HR.
Qed.

Lemma not_after_Compare a b :
  not_after a b → strings_Compare (RelPath a) (RelPath b) ≠ Gt.
Proof.
  unfold not_after, less, strings_Compare.
  rewrite (String.compare_antisym (RelPath a) (RelPath b)).
  by destruct (String.compare (RelPath b) (RelPath a)).
Qed.

(** ** The entries of a directory *)

Lemma NoDup_omap_back {A B} (g : A → option B) (h : B → A) (l : list A) :
  (∀ x b, g x = Some b → h b = x) → NoDup l → NoDup (h <$> omap g l).
Proof.
  intros Hg. induction 1 as [|x l Hx Hl IH]; [constructor|].
  cbn [omap list_omap]. destruct (g x) as [b|] eqn:Hb; [|done].
  rewrite fmap_cons. constructor; [|done].
  rewrite (Hg _ _ Hb). intros Hin.
  apply list_elem_of_fmap in Hin as (b' & Hxb & Hin).
  apply list_elem_of_omap in Hin as (y & Hy & Hgy).
  apply Hg in Hgy. by subst.
Qed.

Lemma child_name_Some d k n :
  child_name d k = Some n → k = d +:+ n ∧ n ≠ "" ∧ has_sep n = false.
Proof.
  unfold child_name. destruct (strip d k) as [[|c r]|] eqn:Hs; [done| |done].
  destruct (has_sep (String c r)) eqn:Hh; [done|]. intros [= <-].
  by apply strip_Some in Hs.
Qed.

Lemma read_dir_entry f p e :
  e ∈ read_dir f p →
  ∃ n, f !! (as_dir p +:+ de_Name e) = Some n ∧ de_IsDir e = is_dir n ∧
       de_Info e = inr (info_of (de_Name e) n) ∧
       de_Name e ≠ "" ∧ has_sep (de_Name e) = false.
Proof.
  unfold read_dir. intros (name & Hname & He)%list_elem_of_omap.
  rewrite merge_sort_Permutation in Hname.
  apply list_elem_of_omap in Hname as (k & _ & Hk).
  apply child_name_Some in Hk as (_ & ? & ?).
  destruct (f !! (as_dir p +:+ name)) as [n|] eqn:Hn; [|done].
  injection He as <-. by exists n.
Qed.

Lemma read_dir_NoDup f p : NoDup (de_Name <$> read_dir f p).
Proof.
  unfold read_dir. apply NoDup_omap_back.
  - intros name e He.
    destruct (f !! (as_dir p +:+ name)) as [n|]; [|done]. by injection He as <-.
  - rewrite merge_sort_Permutation.
    apply (NoDup_fmap_1 (λ n, as_dir p +:+ n)).
    apply NoDup_omap_back; [|apply NoDup_elements].
    intros k n Hk. by apply child_name_Some in Hk as (-> & _).
Qed.

Lemma as_dir_Join b n name :
  n ≠ "" → has_sep n = false → name ≠ "" →
  as_dir (filepath_Join b n) +:+ name = filepath_Join (filepath_Join b n) name.
Proof.
  intros Hn Hs Hname.
  assert (Hj : filepath_Join b n ≠ "").
  { unfold filepath_Join, path_Join. repeat case_decide; try done.
    by destruct b. }
  assert (He : ends_sep (filepath_Join b n) = false).
  { unfold filepath_Join, path_Join. repeat case_decide; try done.
    - by apply has_sep_ends.
    - rewrite !ends_sep_app by done. by apply has_sep_ends. }
  set (x := filepath_Join b n) in *.
  unfold as_dir. rewrite decide_False, HasSuffix_sep, He by done.
  unfold filepath_Join, path_Join.
  rewrite !decide_False by done. by rewrite str_app_assoc.
Qed.

(** ** The manifest of GatherFileStats *)

Lemma sorted_strict l :
  StronglySorted not_after l → NoDup (RelPath <$> l) → StronglySorted less l.
Proof.
  induction 1 as [|x l Hl IH Hx]; intros Hnd; [constructor|].
  rewrite fmap_cons in Hnd. apply NoDup_cons in Hnd as [Hxl Hnd].
  constructor; [by apply IH|].
  apply Forall_forall. intros y Hy. rewrite Forall_forall in Hx.
  specialize (Hx y Hy). unfold not_after, less, strings_Compare in *.
  rewrite (String.compare_antisym (RelPath x) (RelPath y)).
  destruct (String.compare (RelPath y) (RelPath x)) eqn:Hcmp; [|done..].
  apply String.compare_eq_iff in Hcmp. exfalso. apply Hxl.
  rewrite <- Hcmp. apply list_elem_of_fmap. eauto.
Qed.

Lemma stats_unsorted_paths sha256_hex f blockDir hf :
  RelPath <$> stats_unsorted sha256_hex f blockDir hf =
  ((λ e, filepath_Join ChunksDirname (de_Name e))
     <$> read_dir f (filepath_Join blockDir ChunksDirname))
  ++ [IndexFilename; MetaFilename].
Proof.
  unfold stats_unsorted. rewrite fmap_app, <- list_fmap_compose.
  f_equal. cbn [fmap list_fmap index_stat meta_stat RelPath].
  by rewrite !filepath_Base_Join.
Qed.

Lemma stats_unsorted_NoDup sha256_hex f blockDir hf :
  NoDup (RelPath <$> stats_unsorted sha256_hex f blockDir hf).
Proof.
  rewrite stats_unsorted_paths. apply NoDup_app. split_and!.
  - rewrite (list_fmap_compose de_Name (filepath_Join ChunksDirname)).
    apply NoDup_fmap_2_strong; [|apply read_dir_NoDup].
    intros x y Hx Hy Heq.
    apply list_elem_of_fmap in Hx as (ex & -> & Hx).
    apply list_elem_of_fmap in Hy as (ey & -> & Hy).
    apply read_dir_entry in Hx as (_ & _ & _ & _ & ? & _).
    apply read_dir_entry in Hy as (_ & _ & _ & _ & ? & _).
    by apply path_Join_inj in Heq.
  - intros p Hp Hq. apply list_elem_of_fmap in Hp as (e & -> & He).
    apply read_dir_entry in He as (_ & _ & _ & _ & Hne & _).
    unfold filepath_Join, path_Join in Hq.
    rewrite decide_False, decide_False in Hq by done.
    apply elem_of_cons in Hq as [Hq|Hq]; [done|].
    apply elem_of_cons in Hq as [Hq|Hq]; [done|]. by apply elem_of_nil in Hq.
  - apply NoDup_cons. split; [|apply NoDup_singleton].
    by intros ?%list_elem_of_singleton.
Qed.

Section Manifest.

Variable sha256_hex : bytes → string.

Local Abbreviation GatherFileStats' := (GatherFileStats sha256_hex).

(** X12.  A successful GatherFileStats leaves the local disk and the store
    as they were, and the manifest it returns is strictly increasing by
    relative path, so no path is listed twice; its paths are those of the
    entries of the chunks directory, each below [chunks], then [index] and
    [meta.json]. *)
Theorem GatherFileStats_sorted blockDir hf w res w' :
  GatherFileStats' blockDir hf w = (Ok res, w') →
  w' = w ∧
  StronglySorted less res ∧
  RelPath <$> res ≡ₚ
    ((λ e, filepath_Join ChunksDirname (de_Name e))
       <$> read_dir (fs w) (filepath_Join blockDir ChunksDirname))
    ++ [IndexFilename; MetaFilename].
Proof.
  intros Hrun.
  pose proof (readonly_GatherFileStats sha256_hex blockDir hf w) as [Hw _].
  rewrite Hrun in Hw. cbn [snd] in Hw.
  apply GatherFileStats_Ok in Hrun as (-> & _).
  assert (Hp : sort_Slice (stats_unsorted sha256_hex (fs w) blockDir hf)
               ≡ₚ stats_unsorted sha256_hex (fs w) blockDir hf)
    by apply merge_sort_Permutation.
  split_and!; [done| |].
  - apply sorted_strict; [apply StronglySorted_merge_sort; apply _|].
    rewrite Hp. apply stats_unsorted_NoDup.
  - by rewrite Hp, stats_unsorted_paths.
Qed.

End Manifest.

Lemma GatherFileStats_sorted_witness :
  ∃ res,
    (GatherFileStats Demo.sha Demo.blockdir SHA256Func Demo.w_block).1 = Ok res ∧
    StronglySorted less res ∧
    RelPath <$> res ≡ₚ
      ((λ e, filepath_Join ChunksDirname (de_Name e))
         <$> read_dir (fs Demo.w_block) (filepath_Join Demo.blockdir ChunksDirname))
      ++ [IndexFilename; MetaFilename].
Proof.
  edestruct (GatherFileStats_sorted Demo.sha Demo.blockdir SHA256Func Demo.w_block)
    as (_ & Hs & Hp).
  { vm_compute. reflexivity. }
  eexists. split; [vm_compute; reflexivity|]. split; [exact Hs|exact Hp].
Defined.

Section ManifestEntries.

Variable sha256_hex : bytes → string.

Local Abbreviation GatherFileStats' := (GatherFileStats sha256_hex).

(** X13.  Every entry of the manifest of a successful GatherFileStats
    matches the local disk: the entry of [meta.json] carries no size and no
    hash; every other entry names a file or directory of the block
    directory, carries the length of a file, and has a hash exactly when
    hashing is asked for and the entry is not a directory. *)
Theorem GatherFileStats_matches_disk blockDir hf w res w' f :
  GatherFileStats' blockDir hf w = (Ok res, w') →
  f ∈ res →
  if decide (RelPath f = MetaFilename) then SizeBytes f = 0 ∧ Hash f = None
  else ∃ n, fs w !! filepath_Join blockDir (RelPath f) = Some n ∧
            (∀ d, n = NFile d → SizeBytes f = Z.of_nat (String.length d)) ∧
            (Hash f = None ↔ hf = NoneFunc ∨ n = NDir).
Proof.
  intros Hrun Hf.
  apply GatherFileStats_Ok in Hrun as (-> & Hc & [ni Hi] & Hm & Hhash).
  unfold sort_Slice in Hf. rewrite merge_sort_Permutation in Hf.
  unfold stats_unsorted in Hf. apply elem_of_app in Hf as [Hf|Hf].
  - apply list_elem_of_fmap in Hf as (e & -> & He).
    apply read_dir_entry in He as (n & Hn & Hd & Hinfo & Hne & Hsep).
    rewrite as_dir_Join in Hn by done.
    unfold chunk_stat. cbn [RelPath SizeBytes Hash].
    rewrite decide_False.
    2:{ unfold filepath_Join, path_Join. by rewrite !decide_False by done. }
    exists n. split_and!.
    + unfold filepath_Join in *. by rewrite <- path_Join_assoc.
    + intros d ->. by rewrite Hinfo.
    + rewrite Hd. destruct (decide (hf = NoneFunc)) as [->|Hhf].
      * rewrite bool_decide_false by (by intros []). cbn [andb]. by split; auto.
      * rewrite bool_decide_true by done.
        destruct n; cbn [andb negb is_dir]; split; try done; auto.
        by intros [?|?].
  - apply elem_of_cons in Hf as [->|Hf].
    + unfold index_stat. cbn [RelPath SizeBytes Hash].
      rewrite filepath_Base_Join by done. rewrite decide_False by done.
      exists ni. rewrite Hi. split_and!; [done|by intros d ->|].
      destruct (decide (hf = NoneFunc)) as [->|Hhf].
      * rewrite bool_decide_false by (by intros []). by split; auto.
      * rewrite bool_decide_true by done.
        destruct (Hhash Hhf) as (_ & d & Hd). rewrite Hi in Hd.
        injection Hd as ->. split; [done|]. by intros [?|?].
    + apply list_elem_of_singleton in Hf as ->. unfold meta_stat.
      cbn [RelPath SizeBytes Hash]. rewrite filepath_Base_Join by done.
      by rewrite decide_True.
Qed.

(** X14.  GatherFileStats fails, and leaves the world as it was, when the
    block directory lacks one of its parts: a chunks directory, an index or
    a descriptor. *)
Theorem GatherFileStats_needs_layout blockDir hf w :
  ¬ (fs w !! filepath_Join blockDir ChunksDirname = Some NDir ∧
     is_Some (fs w !! filepath_Join blockDir IndexFilename) ∧
     is_Some (fs w !! filepath_Join blockDir MetaFilename)) →
  ∃ e, GatherFileStats' blockDir hf w = (Err e, w).
Proof.
  intros Hno.
  destruct (readonly_run _ w (readonly_GatherFileStats sha256_hex blockDir hf))
    as [[res Hrun]|Herr]; [|done].
  apply GatherFileStats_Ok in Hrun as (_ & ? & ? & ? & _). by destruct Hno.
Qed.

Lemma chunk_stats_NoneFunc blockDir files res w :
  Forall (λ e, ∃ fi, de_Info e = inr fi) files →
  chunk_stats sha256_hex blockDir NoneFunc files res w
  = (Ok (res ++ (chunk_stat sha256_hex (fs w) blockDir NoneFunc <$> files)), w).
Proof.
  intros Hall. revert res. induction Hall as [|e files [fi He] _ IH]; intros res.
  { by rewrite app_nil_r. }
  cbn [chunk_stats]. rewrite He.
  erewrite bind_Ok by (apply wrap_Ok; reflexivity).
  rewrite bool_decide_false by (by intros []). cbn [andb].
  erewrite bind_Ok by reflexivity.
  rewrite IH, fmap_cons, <- app_assoc. unfold chunk_stat.
  rewrite He, bool_decide_false by (by intros []). done.
Qed.

(** X15.  Without hashing (NoneFunc) the three parts are all that
    GatherFileStats needs: it succeeds, changes nothing, and returns one
    entry per entry of the chunks directory and two more, none with a
    hash. *)
Theorem GatherFileStats_without_hashes blockDir w :
  fs w !! filepath_Join blockDir ChunksDirname = Some NDir →
  is_Some (fs w !! filepath_Join blockDir IndexFilename) →
  is_Some (fs w !! filepath_Join blockDir MetaFilename) →
  ∃ res, GatherFileStats' blockDir NoneFunc w = (Ok res, w) ∧
         length res
         = (length (read_dir (fs w) (filepath_Join blockDir ChunksDirname)) + 2)%nat ∧
         Forall (λ f, Hash f = None) res.
Proof.
  intros Hc [ni Hi] [nm Hm].
  assert (Hrun : GatherFileStats' blockDir NoneFunc w
                 = (Ok (sort_Slice (stats_unsorted sha256_hex (fs w) blockDir NoneFunc)), w)).
  { unfold GatherFileStats.
    erewrite bind_Ok by (apply wrap_Ok; unfold os_ReadDir; rewrite Hc; reflexivity).
    erewrite bind_Ok.
    2:{ apply chunk_stats_NoneFunc. apply Forall_forall. intros e He.
        apply read_dir_entry in He as (n & _ & _ & Hinfo & _). eauto. }
    erewrite bind_Ok by (apply wrap_Ok; rewrite os_Stat_run, Hi; reflexivity).
    rewrite bool_decide_false by (by intros []).
    erewrite bind_Ok by reflexivity.
    erewrite bind_Ok by (apply wrap_Ok; rewrite os_Stat_run, Hm; reflexivity).
    rewrite !info_of_Name. unfold stats_unsorted, index_stat, meta_stat.
    rewrite Hi, bool_decide_false by (by intros []).
    rewrite app_nil_l, <- app_assoc. done. }
  eexists. split; [exact Hrun|].
  assert (Hp : sort_Slice (stats_unsorted sha256_hex (fs w) blockDir NoneFunc)
               ≡ₚ stats_unsorted sha256_hex (fs w) blockDir NoneFunc)
    by apply merge_sort_Permutation.
  rewrite Hp. split.
  - unfold stats_unsorted. rewrite length_app, length_fmap. done.
  - unfold stats_unsorted. apply Forall_app. split.
    + apply Forall_fmap, Forall_forall. intros e _. unfold chunk_stat.
      cbn [compose Hash]. by rewrite bool_decide_false by (by intros []).
    + by repeat constructor.
Qed.

End ManifestEntries.

Lemma GatherFileStats_matches_disk_witness :
  (∃ res, (GatherFileStats Demo.sha Demo.blockdir SHA256Func Demo.w_block).1
          = Ok res ∧ Demo.segment2 ∈ res) ∧
  ∃ n, fs Demo.w_block !! filepath_Join Demo.blockdir (RelPath Demo.segment2)
       = Some n ∧
       (∀ d, n = NFile d →
             SizeBytes Demo.segment2 = Z.of_nat (String.length d)) ∧
       (Hash Demo.segment2 = None ↔ SHA256Func = NoneFunc ∨ n = NDir).
Proof.
  split.
  { eexists. split; [vm_compute; reflexivity|].
    apply elem_of_cons. right. apply elem_of_cons. left. reflexivity. }
  eapply (GatherFileStats_matches_disk Demo.sha Demo.blockdir SHA256Func
            Demo.w_block _ _ Demo.segment2).
  - vm_compute. reflexivity.
  - apply elem_of_cons. right. apply elem_of_cons. left. reflexivity.
Defined.

Lemma GatherFileStats_needs_layout_witness :
  fs Demo.w_empty !! filepath_Join Demo.blockdir ChunksDirname = None ∧
  ∃ e, GatherFileStats Demo.sha Demo.blockdir SHA256Func Demo.w_empty
       = (Err e, Demo.w_empty).
Proof.
  split; [vm_compute; reflexivity|].
  apply (GatherFileStats_needs_layout Demo.sha Demo.blockdir SHA256Func
           Demo.w_empty).
  intros [H _]. vm_compute in H. discriminate H.
Defined.

Lemma GatherFileStats_without_hashes_witness :
  ∃ res, GatherFileStats Demo.sha Demo.blockdir NoneFunc Demo.w_block
         = (Ok res, Demo.w_block) ∧
         length res
         = (length (read_dir (fs Demo.w_block)
                      (filepath_Join Demo.blockdir ChunksDirname)) + 2)%nat ∧
         Forall (λ f, Hash f = None) res.
Proof.
  apply (GatherFileStats_without_hashes Demo.sha Demo.blockdir Demo.w_block).
  - vm_compute. reflexivity.
  - vm_compute. eauto.
  - vm_compute. eauto.
Defined.
